(** * Verification of [models/base_network.py]

    A shallow embedding of the decoders and estimators of
    [src/models/base_network.py].

    - Token ids, lengths and shapes are [nat]; the Python integers [K],
      [max_t], [t] and [leng] are [Z].
    - Scores that the search compares (log-probabilities, logits) are exact
      rationals [Q] standing for the float tensors of the source, so that the
      decoders run inside Rocq.
    - The estimators that use [exp] and [log] are stated over the real
      numbers [R].
    - A raised Python exception is the [Raise] case of [result].
    - The recurrent cell, the embedding table and the linear layers of the
      decoders are parameters: the source treats them as opaque [nn.Module]s. *)

From Stdlib Require Import String.
From Stdlib Require Import List ZArith QArith Qminmax Lia Bool Arith.
From Stdlib Require Import Sorting.Permutation Sorting.Sorted.
From Stdlib Require Lqa.
From Stdlib Require Import Reals Lra.
Import ListNotations.

Set Implicit Arguments.

(** ** Exceptions *)

Inductive exn : Type :=
| AssertionError
| NotImplementedError
| RuntimeError
| IndexError
| ValueError.

Inductive result (A : Type) : Type :=
| Ok (a : A)
| Raise (e : exn).

Arguments Ok {A} a.
Arguments Raise {A} e.

Definition bind {A B : Type} (r : result A) (f : A -> result B) : result B :=
  match r with
  | Ok a => f a
  | Raise e => Raise e
  end.

Notation "x <- r ;; k" := (bind r (fun x => k))
  (at level 61, r at next level, right associativity).

(** A [for] loop that appends one result per element and stops at the first
    exception. *)
Fixpoint for_each {A B : Type} (f : A -> result B) (l : list A) : result (list B) :=
  match l with
  | [] => Ok []
  | x :: rest =>
      y <- f x ;;
      ys <- for_each f rest ;;
      Ok (y :: ys)
  end.

Lemma for_each_all_ok {A B : Type} (f : A -> result B) (g : A -> B) (l : list A) :
  (forall x, In x l -> f x = Ok (g x)) -> for_each f l = Ok (map g l).
Proof.
  induction l as [|x rest IH]; intros Hall; simpl.
  - reflexivity.
  - rewrite (Hall x (or_introl eq_refl)). simpl.
    rewrite IH by (intros y Hy; apply Hall; right; exact Hy).
    reflexivity.
Qed.

(** ** Stable descending sort

    [sorted(xs, key=key, reverse=True)]: Python's sort is stable, and with
    [reverse=True] elements with equal keys keep their original order. *)

Section SortDesc.
Context {A : Type}.
Variable key : A -> Q.

Fixpoint insert_desc (x : A) (l : list A) : list A :=
  match l with
  | [] => [x]
  | y :: rest =>
      if Qle_bool (key y) (key x) then x :: y :: rest
      else y :: insert_desc x rest
  end.

Definition sort_desc (l : list A) : list A :=
  fold_right insert_desc [] l.

Definition key_ge (x y : A) : Prop := (key y <= key x)%Q.

Lemma insert_desc_perm x l : Permutation (insert_desc x l) (x :: l).
Proof.
  induction l as [|y rest IH]; simpl.
  - apply Permutation_refl.
  - destruct (Qle_bool (key y) (key x)).
    + apply Permutation_refl.
    + eapply Permutation_trans; [apply perm_skip, IH | apply perm_swap].
Qed.

Lemma sort_desc_perm l : Permutation (sort_desc l) l.
Proof.
  induction l as [|x rest IH]; simpl.
  - constructor.
  - eapply Permutation_trans; [apply insert_desc_perm | apply perm_skip, IH].
Qed.

Lemma insert_desc_sorted x l :
  StronglySorted key_ge l -> StronglySorted key_ge (insert_desc x l).
Proof.
  induction l as [|y rest IH]; intros Hs; simpl.
  - constructor; [constructor | constructor].
  - inversion Hs as [|? ? Hrest Hall]; subst.
    destruct (Qle_bool (key y) (key x)) eqn:E.
    + apply Qle_bool_iff in E.
      constructor; [exact Hs |].
      constructor; [exact E |].
      rewrite Forall_forall in *. intros z Hz. unfold key_ge in *.
      eapply Qle_trans; [apply Hall, Hz | exact E].
    + assert (Hlt : (key x < key y)%Q).
      { apply Qnot_le_lt. intro Hle. apply Qle_bool_iff in Hle. congruence. }
      constructor; [apply IH, Hrest |].
      rewrite Forall_forall in *. intros z Hz.
      apply (Permutation_in _ (insert_desc_perm x rest)) in Hz.
      destruct Hz as [<- | Hz].
      * unfold key_ge. apply Qlt_le_weak, Hlt.
      * apply Hall, Hz.
Qed.

Lemma sort_desc_sorted l : StronglySorted key_ge (sort_desc l).
Proof.
  induction l as [|x rest IH]; simpl.
  - constructor.
  - apply insert_desc_sorted, IH.
Qed.

(** An element whose key is strictly above every other key comes first,
    whatever the order among the rest. *)
Lemma sort_desc_strict_max pre m post :
  (forall y, In y (pre ++ post) -> (key y < key m)%Q) ->
  exists tl, sort_desc (pre ++ m :: post) = m :: tl.
Proof.
  intros Hmax.
  pose proof (sort_desc_perm (pre ++ m :: post)) as Hp.
  pose proof (sort_desc_sorted (pre ++ m :: post)) as Hs.
  destruct (sort_desc (pre ++ m :: post)) as [|hd tl] eqn:E.
  - apply Permutation_nil in Hp. destruct pre; discriminate.
  - assert (Hm : In m (hd :: tl)).
    { apply (Permutation_in _ (Permutation_sym Hp)).
      apply in_or_app. right. left. reflexivity. }
    assert (Hhd : In hd (pre ++ m :: post)).
    { apply (Permutation_in _ Hp). left. reflexivity. }
    apply in_app_or in Hhd.
    assert (Hcase : hd = m \/ In hd (pre ++ post)).
    { destruct Hhd as [H | [H | H]].
      - right. apply in_or_app. left. exact H.
      - left. symmetry. exact H.
      - right. apply in_or_app. right. exact H. }
    destruct Hcase as [-> | Hin].
    + exists tl. reflexivity.
    + exfalso. apply Hmax in Hin.
      destruct Hm as [Heq | Htl].
      * subst hd. apply (Qlt_irrefl (key m)). exact Hin.
      * inversion Hs as [|? ? _ Hall]; subst.
        rewrite Forall_forall in Hall. specialize (Hall m Htl).
        unfold key_ge in Hall.
        apply (Qlt_irrefl (key m)).
        eapply Qle_lt_trans; [exact Hall | exact Hin].
Qed.
End SortDesc.

(** ** [torch.topk]

    [torch.topk(input, k)] on a 1-D tensor returns the [k] largest values,
    in descending order, with their indices, and raises when [k] exceeds the
    number of elements.  Which of several equal values is taken, and in which
    order, is left to the implementation: the class states the contract only,
    and the development holds for every implementation of it. *)

Definition score_ge (p q : Q * nat) : Prop := (fst q <= fst p)%Q.

Class TopK : Type := {
  topk : list Q -> nat -> option (list (Q * nat));
  topk_range : forall xs k, topk xs k = None <-> (length xs < k)%nat;
  topk_length : forall xs k sel, topk xs k = Some sel -> length sel = k;
  topk_lookup : forall xs k sel,
      topk xs k = Some sel ->
      forall v i, In (v, i) sel -> nth_error xs i = Some v;
  topk_nodup : forall xs k sel, topk xs k = Some sel -> NoDup (map snd sel);
  topk_sorted : forall xs k sel,
      topk xs k = Some sel -> StronglySorted score_ge sel;
  topk_largest : forall xs k sel,
      topk xs k = Some sel ->
      forall j x, nth_error xs j = Some x ->
      ~ In j (map snd sel) -> forall p, In p sel -> (x <= fst p)%Q
}.

(** One implementation: sort the indexed values, keep the first [k]; among
    equal values the lower index wins. *)

Definition enumerate_from (s : nat) (xs : list Q) : list (Q * nat) :=
  combine xs (seq s (length xs)).

Definition stable_topk (xs : list Q) (k : nat) : option (list (Q * nat)) :=
  if (k <=? length xs)%nat
  then Some (firstn k (sort_desc fst (enumerate_from 0 xs)))
  else None.

Lemma in_enumerate_from s xs v i :
  In (v, i) (enumerate_from s xs) <->
  (s <= i)%nat /\ nth_error xs (i - s) = Some v.
Proof.
  unfold enumerate_from. revert s.
  induction xs as [|x rest IH]; intros s; simpl.
  - split; [tauto |]. intros [_ H]. destruct (i - s)%nat; discriminate.
  - rewrite IH. split.
    + intros [Heq | [Hle Hn]].
      * inversion Heq; subst. split; [lia |].
        replace (i - i)%nat with 0%nat by lia. reflexivity.
      * split; [lia |].
        replace (i - s)%nat with (S (i - S s)) by lia. exact Hn.
    + intros [Hle Hn].
      destruct (Nat.eq_dec s i) as [-> | Hne].
      * left. replace (i - i)%nat with 0%nat in Hn by lia.
        simpl in Hn. congruence.
      * right. split; [lia |].
        replace (i - s)%nat with (S (i - S s)) in Hn by lia. exact Hn.
Qed.

Lemma map_snd_enumerate_from s xs :
  map snd (enumerate_from s xs) = seq s (length xs).
Proof.
  unfold enumerate_from. revert s.
  induction xs as [|x rest IH]; intros s; simpl; [reflexivity |].
  rewrite IH. reflexivity.
Qed.

Lemma StronglySorted_app_inv {A : Type} (R : A -> A -> Prop) (l1 l2 : list A) :
  StronglySorted R (l1 ++ l2) ->
  StronglySorted R l1 /\ (forall x y, In x l1 -> In y l2 -> R x y).
Proof.
  induction l1 as [|a l1 IH]; simpl; intros Hs.
  - split; [constructor | contradiction].
  - inversion Hs as [|? ? Hrest Hall]; subst.
    destruct (IH Hrest) as [Hs1 Hcross].
    rewrite Forall_forall in Hall.
    split.
    + constructor; [exact Hs1 |].
      rewrite Forall_forall. intros y Hy. apply Hall, in_or_app. left. exact Hy.
    + intros x y [<- | Hx] Hy.
      * apply Hall, in_or_app. right. exact Hy.
      * apply Hcross; assumption.
Qed.

Section StableTopK.
Variables (xs : list Q) (k : nat) (sel : list (Q * nat)).
Hypothesis Hsel : stable_topk xs k = Some sel.

Let sorted := sort_desc fst (enumerate_from 0 xs).

Lemma stable_topk_inv :
  (k <= length xs)%nat /\ sel = firstn k sorted.
Proof.
  unfold stable_topk in Hsel.
  destruct (Nat.leb_spec k (length xs)); [| discriminate].
  inversion Hsel. split; [assumption | reflexivity].
Qed.

Lemma sorted_split : sorted = sel ++ skipn k sorted.
Proof.
  destruct stable_topk_inv as [_ ->]. symmetry. apply firstn_skipn.
Qed.

Lemma sorted_length : length sorted = length xs.
Proof.
  unfold sorted.
  rewrite (Permutation_length (sort_desc_perm fst _)).
  unfold enumerate_from. rewrite length_combine, length_seq. lia.
Qed.

Lemma stable_topk_length : length sel = k.
Proof.
  destruct stable_topk_inv as [Hk ->].
  rewrite length_firstn, sorted_length. lia.
Qed.

Lemma stable_topk_in_sorted p : In p sel -> In p sorted.
Proof.
  intros Hp. rewrite sorted_split. apply in_or_app. left. exact Hp.
Qed.

Lemma stable_topk_lookup v i : In (v, i) sel -> nth_error xs i = Some v.
Proof.
  intros Hp. apply stable_topk_in_sorted in Hp.
  apply (Permutation_in _ (sort_desc_perm fst _)) in Hp.
  apply in_enumerate_from in Hp. destruct Hp as [_ Hn].
  rewrite Nat.sub_0_r in Hn. exact Hn.
Qed.

Lemma stable_topk_nodup : NoDup (map snd sel).
Proof.
  assert (Hnd : NoDup (map snd sorted)).
  { apply (Permutation_NoDup
             (Permutation_map snd (Permutation_sym (sort_desc_perm fst _)))).
    rewrite map_snd_enumerate_from. apply seq_NoDup. }
  rewrite sorted_split, map_app in Hnd.
  apply NoDup_app_remove_r in Hnd. exact Hnd.
Qed.

Lemma stable_topk_sorted : StronglySorted score_ge sel.
Proof.
  pose proof (sort_desc_sorted fst (enumerate_from 0 xs)) as Hs.
  fold sorted in Hs. rewrite sorted_split in Hs.
  apply StronglySorted_app_inv in Hs. apply Hs.
Qed.

Lemma stable_topk_largest j x :
  nth_error xs j = Some x -> ~ In j (map snd sel) ->
  forall p, In p sel -> (x <= fst p)%Q.
Proof.
  intros Hn Hout p Hp.
  assert (Hin : In (x, j) sorted).
  { apply (Permutation_in _ (Permutation_sym (sort_desc_perm fst _))).
    apply in_enumerate_from. split; [lia |].
    rewrite Nat.sub_0_r. exact Hn. }
  pose proof (sort_desc_sorted fst (enumerate_from 0 xs)) as Hs.
  fold sorted in Hs. rewrite sorted_split in Hs, Hin.
  apply StronglySorted_app_inv in Hs. destruct Hs as [_ Hcross].
  apply in_app_or in Hin. destruct Hin as [Hin | Hin].
  - exfalso. apply Hout. apply (in_map snd) in Hin. exact Hin.
  - apply (Hcross p (x, j) Hp Hin).
Qed.
End StableTopK.

Lemma stable_topk_range xs k :
  stable_topk xs k = None <-> (length xs < k)%nat.
Proof.
  unfold stable_topk. destruct (Nat.leb_spec k (length xs)); split; intros H0;
    try discriminate; try lia; reflexivity.
Qed.

#[export] Instance StableTopK : TopK := {|
  topk := stable_topk;
  topk_range := stable_topk_range;
  topk_length := stable_topk_length;
  topk_lookup := stable_topk_lookup;
  topk_nodup := stable_topk_nodup;
  topk_sorted := stable_topk_sorted;
  topk_largest := stable_topk_largest
|}.

(** With a strict maximum among the inputs, every implementation returns it
    first. *)
Lemma topk_strict_max `{TopK} (xs : list Q) (k m : nat) (vm : Q) sel :
  topk xs k = Some sel -> (1 <= k)%nat ->
  nth_error xs m = Some vm ->
  (forall j x, nth_error xs j = Some x -> j <> m -> (x < vm)%Q) ->
  exists rest, sel = (vm, m) :: rest /\
               forall v i, In (v, i) rest -> i <> m /\ nth_error xs i = Some v.
Proof.
  intros Hsel Hk Hm Hmax.
  pose proof (@topk_length _ _ _ _ Hsel) as Hlen.
  destruct sel as [|[v0 i0] rest]; [simpl in Hlen; lia |].
  pose proof (@topk_lookup _ _ _ _ Hsel v0 i0 (or_introl eq_refl)) as H0.
  assert (Hi0 : i0 = m).
  { destruct (Nat.eq_dec i0 m) as [E | NE]; [exact E | exfalso].
    pose proof (Hmax _ _ H0 NE) as Hlt.
    destruct (in_dec Nat.eq_dec m (map snd ((v0, i0) :: rest))) as [Hin | Hout].
    - simpl in Hin. destruct Hin as [Hin | Hin]; [congruence |].
      apply in_map_iff in Hin. destruct Hin as [[v' i'] [Hi' Hin]].
      simpl in Hi'. subst i'.
      pose proof (@topk_lookup _ _ _ _ Hsel _ _ (or_intror Hin)) as Hv'.
      rewrite Hm in Hv'. inversion Hv'; subst v'.
      pose proof (@topk_sorted _ _ _ _ Hsel) as Hs.
      inversion Hs as [|? ? _ Hall]; subst.
      rewrite Forall_forall in Hall. specialize (Hall _ Hin).
      unfold score_ge in Hall. simpl in Hall.
      apply (Qlt_irrefl vm). eapply Qle_lt_trans; eassumption.
    - pose proof (@topk_largest _ _ _ _ Hsel _ _ Hm Hout (v0, i0) (or_introl eq_refl)) as Hle.
      simpl in Hle.
      apply (Qlt_irrefl vm). eapply Qle_lt_trans; eassumption. }
  subst i0. rewrite Hm in H0. inversion H0; subst v0.
  exists rest. split; [reflexivity |].
  intros v i Hin. split.
  - pose proof (@topk_nodup _ _ _ _ Hsel) as Hnd. simpl in Hnd.
    inversion Hnd as [|? ? Hnotin _]; subst.
    intros ->. apply Hnotin. apply (in_map snd) in Hin. exact Hin.
  - apply (@topk_lookup _ _ _ _ Hsel). right. exact Hin.
Qed.

(** ** [BeamSearchNode] and [LSTMDecoder.beam_search_decode] *)

Module Beam.
Local Open Scope Q_scope.
#[local] Set Default Proof Using "Type".

Section LSTMDecoder.
(** The decoder's collaborators. *)
Variable Vec : Type.                          (* one row of an LSTM state tensor *)
Variable vocab_len : nat.                     (* [len(self.vocab)] *)
Variables bos eos : nat.                      (* [self.vocab["<s>"]], [self.vocab["</s>"]] *)
Variable id2word : nat -> string.             (* [self.vocab.id2word] *)
Variable trans_linear : list Q -> Vec.        (* [self.trans_linear], one row *)
Variable tanh : Vec -> Vec.                   (* [torch.tanh], one row *)

Definition Hidden : Type := (Vec * Vec)%type. (* [(h, c)] of one hypothesis *)

(** One row of [self.embed], [self.lstm], [self.pred_linear] and
    [F.log_softmax]: from the latent row, the state and the input token to
    the log-probabilities over the vocabulary and the next state.  The rows
    of a batch do not interact. *)
Variable lstm_log_softmax : list Q -> Hidden -> nat -> list Q * Hidden.

Context {TK : TopK}.

#[warnings="-register-all"]
Inductive BeamSearchNode : Type :=
  mkNode { h : Hidden;
           prevNode : option BeamSearchNode;
           wordid : nat;
           logp : Q;
           leng : Z }.

(** [BeamSearchNode.eval] *)
Definition eval (n : BeamSearchNode) (alpha : Q) : Q :=
  let reward := 0 in
  logp n / (inject_Z (leng n) - 1 + (1 # 1000000)) + alpha * reward.

Record beam_state : Type :=
  mkState { live_hypotheses : list BeamSearchNode;
            completed_hypotheses : list BeamSearchNode;
            t : Z }.

(** The two call shapes: [z2 is None] with a 2-D [z1], or a 3-D pair. *)
Inductive latent_input : Type :=
| Joint (z1 : list (list Q))
| ContentStyle (z1 z2 : list (list (list Q))).

Definition view_rows (z : list (list (list Q))) : list (list Q) := concat z.

Definition cat_last (a b : list (list Q)) : result (list (list Q)) :=
  if (length a =? length b)%nat
  then Ok (map (fun p => fst p ++ snd p) (combine a b))
  else Raise RuntimeError.

Definition latent_rows (inp : latent_input) : result (list (list Q)) :=
  match inp with
  | Joint z1 => Ok z1
  | ContentStyle z1 z2 => cat_last (view_rows z1) (view_rows z2)
  end.

(** INIT: the node built at the top of the per-example loop. *)
Definition root_node (z_idx : list Q) : BeamSearchNode :=
  let c_init := trans_linear z_idx in
  let h_init := tanh c_init in
  let decoder_input := bos in
  let decoder_hidden := (h_init, c_init) in
  mkNode decoder_hidden None decoder_input (1 # 10) 1.

Definition init_state (z_idx : list Q) : beam_state :=
  let node := root_node z_idx in
  mkState [node] [] 0.

Definition loop_guard (K max_t : Z) (st : beam_state) : bool :=
  (Z.of_nat (length (completed_hypotheses st)) <? K)%Z && (t st <? max_t)%Z.

(** The [for ... in zip(live_ids, word_ids, log_prob)] loop. *)
Fixpoint collect (live : list BeamSearchNode) (decoder_hidden : list Hidden)
         (t' : Z) (sel : list (Q * nat))
         (completed live_new : list BeamSearchNode)
  : result (list BeamSearchNode * list BeamSearchNode) :=
  match sel with
  | [] => Ok (completed, live_new)
  | (log_prob_, index) :: rest =>
      let live_id := (index / vocab_len)%nat in
      let word_id := (index mod vocab_len)%nat in
      match nth_error decoder_hidden live_id, nth_error live live_id with
      | Some hid, Some parent =>
          let node := mkNode hid (Some parent) word_id log_prob_ t' in
          if (word_id =? eos)%nat
          then collect live decoder_hidden t' rest (completed ++ [node]) live_new
          else collect live decoder_hidden t' rest completed (live_new ++ [node])
      | _, _ => Raise IndexError
      end
  end.

(** The scores handed to [torch.topk]: row [i] holds the log-probabilities
    after live hypothesis [i], each plus that hypothesis's [logp]. *)
Definition scores (z_idx : list Q) (live : list BeamSearchNode) : list Q :=
  concat (map (fun n =>
                 map (fun x => x + logp n)
                     (fst (lstm_log_softmax z_idx (h n) (wordid n))))
              live).

(** EXPAND: one pass through the body of the [while] loop, up to the
    assignment [live_hypotheses = live_hypotheses_new]. *)
Definition expand (K : Z) (z_idx : list Q) (st : beam_state) : result beam_state :=
  let t' := (t st + 1)%Z in
  let live := live_hypotheses st in
  let completed := completed_hypotheses st in
  match live with
  | [] => Raise RuntimeError            (* [torch.cat] of an empty list *)
  | _ :: _ =>
      let decoder_hidden :=
        map (fun n => snd (lstm_log_softmax z_idx (h n) (wordid n))) live in
      let decoder_output := scores z_idx live in
      match topk decoder_output (Z.to_nat (K - Z.of_nat (length completed))) with
      | None => Raise RuntimeError      (* [k] out of range *)
      | Some sel =>
          r <- collect live decoder_hidden t' sel completed [] ;;
          Ok (mkState (snd r) (fst r) t')
      end
  end.

(** The [while] loop.  [fuel] bounds the number of iterations; the loop
    itself runs at most [max_t - t] of them (see [beam_loop_fuel]). *)
Fixpoint beam_loop (fuel : nat) (K max_t : Z) (z_idx : list Q) (st : beam_state)
  : result beam_state :=
  match fuel with
  | O => Ok st
  | S fuel' =>
      if loop_guard K max_t st then
        st' <- expand K z_idx st ;;
        if (Z.of_nat (length (completed_hypotheses st')) =? K)%Z
        then Ok st'
        else beam_loop fuel' K max_t z_idx st'
      else Ok st
  end.

(** Following [prevNode] up to the root, the words met on the way. *)
Fixpoint utterance (n : BeamSearchNode) : list string :=
  match n with
  | mkNode _ prev w _ _ =>
      id2word w :: match prev with
                   | Some p => utterance p
                   | None => []
                   end
  end.

(** FINALIZE: the live hypotheses join the completed ones, the list is
    sorted by [logp], and only the first one is decoded. *)
Definition finalize (st : beam_state) : result (list string) :=
  let completed := completed_hypotheses st ++ live_hypotheses st in
  match sort_desc logp completed with
  | n :: _ => Ok (rev (utterance n))
  | [] => Raise IndexError              (* [utterances[0]] *)
  end.

Definition decode_example (K max_t : Z) (z_idx : list Q) : result (list string) :=
  st <- beam_loop (Z.to_nat max_t) K max_t z_idx (init_state z_idx) ;;
  finalize st.

Definition beam_search_decode (inp : latent_input) (K max_t : Z)
  : result (list (list string)) :=
  z <- latent_rows inp ;;
  for_each (decode_example K max_t) z.

(** *** The states the loop goes through *)

(** [reachable K max_t z st]: the loop on example [z] has [st] in hand, either
    at INIT or at the end of an EXPAND step entered with the loop condition
    true. *)
Inductive reachable (K max_t : Z) (z_idx : list Q) : beam_state -> Prop :=
| reach_init : reachable K max_t z_idx (init_state z_idx)
| reach_expand st st' :
    reachable K max_t z_idx st ->
    loop_guard K max_t st = true ->
    expand K z_idx st = Ok st' ->
    reachable K max_t z_idx st'.

Lemma collect_length live dh t' sel :
  forall completed live_new completed' live',
    collect live dh t' sel completed live_new = Ok (completed', live') ->
    (length live' + length completed'
     = length live_new + length completed + length sel)%nat.
Proof.
  induction sel as [|[v i] rest IH]; intros completed live_new completed' live' Hc;
    simpl in Hc.
  - inversion Hc; subst. simpl. lia.
  - destruct (nth_error dh (i / vocab_len)) as [hid|]; [| discriminate].
    destruct (nth_error live (i / vocab_len)) as [parent|]; [| discriminate].
    destruct (i mod vocab_len =? eos)%nat; apply IH in Hc;
      rewrite Hc, ?length_app; simpl; lia.
Qed.

Lemma expand_inv K z_idx st st' :
  expand K z_idx st = Ok st' ->
  exists sel,
    live_hypotheses st <> [] /\
    topk (scores z_idx (live_hypotheses st))
         (Z.to_nat (K - Z.of_nat (length (completed_hypotheses st)))) = Some sel /\
    collect (live_hypotheses st)
            (map (fun n => snd (lstm_log_softmax z_idx (h n) (wordid n)))
                 (live_hypotheses st))
            (t st + 1)%Z sel (completed_hypotheses st) []
    = Ok (completed_hypotheses st', live_hypotheses st') /\
    t st' = (t st + 1)%Z.
Proof.
  unfold expand. intros He.
  destruct (live_hypotheses st) as [|n0 live] eqn:El; [discriminate |].
  destruct (topk _ _) as [sel|] eqn:Et; [| discriminate].
  destruct (collect _ _ _ _ _ _) as [[c' l']|e] eqn:Ec; simpl in He; [| discriminate].
  inversion He; subst st'; simpl.
  exists sel. repeat split; try assumption. discriminate.
Qed.

Lemma expand_size K z_idx st st' :
  (Z.of_nat (length (completed_hypotheses st)) < K)%Z ->
  expand K z_idx st = Ok st' ->
  Z.of_nat (length (live_hypotheses st') + length (completed_hypotheses st')) = K.
Proof.
  intros Hlt He.
  destruct (expand_inv _ _ _ He) as (sel & _ & Ht & Hc & _).
  apply collect_length in Hc. apply topk_length in Ht.
  rewrite Hc, Ht. simpl. lia.
Qed.

Lemma loop_guard_true K max_t st :
  loop_guard K max_t st = true ->
  (Z.of_nat (length (completed_hypotheses st)) < K)%Z /\ (t st < max_t)%Z.
Proof.
  unfold loop_guard. rewrite andb_true_iff, !Z.ltb_lt. intros G. exact G.
Qed.

(** The loop runs at most [max_t - t] more times: more fuel than that
    changes nothing. *)
Lemma beam_loop_fuel K max_t z_idx fuel :
  forall st, (max_t - t st <= Z.of_nat fuel)%Z ->
             beam_loop (S fuel) K max_t z_idx st = beam_loop fuel K max_t z_idx st.
Proof.
  induction fuel as [|fuel IH]; intros st Hfuel.
  - simpl. destruct (loop_guard K max_t st) eqn:G; [| reflexivity].
    apply loop_guard_true in G. lia.
  - change (beam_loop (S (S fuel)) K max_t z_idx st)
      with (if loop_guard K max_t st then
              st' <- expand K z_idx st ;;
              if (Z.of_nat (length (completed_hypotheses st')) =? K)%Z
              then Ok st'
              else beam_loop (S fuel) K max_t z_idx st'
            else Ok st).
    change (beam_loop (S fuel) K max_t z_idx st)
      with (if loop_guard K max_t st then
              st' <- expand K z_idx st ;;
              if (Z.of_nat (length (completed_hypotheses st')) =? K)%Z
              then Ok st'
              else beam_loop fuel K max_t z_idx st'
            else Ok st).
    destruct (loop_guard K max_t st) eqn:G; [| reflexivity].
    destruct (expand K z_idx st) as [st'|e] eqn:He; [| reflexivity].
    simpl.
    destruct (Z.of_nat (length (completed_hypotheses st')) =? K)%Z; [reflexivity |].
    apply IH.
    destruct (expand_inv _ _ _ He) as (_ & _ & _ & _ & Ht).
    rewrite Ht. lia.
Qed.

(** [beam_search_decode] gives the loop [max_t] units of fuel, which is
    all the loop can use. *)
Lemma beam_loop_enough K max_t z_idx extra :
  beam_loop (Z.to_nat max_t + extra) K max_t z_idx (init_state z_idx)
  = beam_loop (Z.to_nat max_t) K max_t z_idx (init_state z_idx).
Proof.
  induction extra as [|extra IH].
  - rewrite Nat.add_0_r. reflexivity.
  - rewrite Nat.add_succ_r, beam_loop_fuel; [exact IH |].
    unfold init_state. cbn [t]. lia.
Qed.

Lemma beam_loop_reachable K max_t z_idx fuel :
  forall st st',
    reachable K max_t z_idx st ->
    beam_loop fuel K max_t z_idx st = Ok st' ->
    reachable K max_t z_idx st'.
Proof.
  induction fuel as [|fuel IH]; intros st st' Hr Hl; simpl in Hl.
  - inversion Hl; subst. exact Hr.
  - destruct (loop_guard K max_t st) eqn:G.
    + destruct (expand K z_idx st) as [st1|e] eqn:He; simpl in Hl; [| discriminate].
      assert (Hr1 : reachable K max_t z_idx st1) by (eapply reach_expand; eassumption).
      destruct (Z.of_nat (length (completed_hypotheses st1)) =? K)%Z.
      * inversion Hl; subst. exact Hr1.
      * eapply IH; eassumption.
    + inversion Hl; subst. exact Hr.
Qed.

Lemma reachable_size K max_t z_idx st :
  reachable K max_t z_idx st ->
  st = init_state z_idx \/
  Z.of_nat (length (live_hypotheses st) + length (completed_hypotheses st)) = K.
Proof.
  intros Hr. destruct Hr as [|st st' _ G He].
  - left. reflexivity.
  - right. apply loop_guard_true in G. eapply expand_size; [apply G | exact He].
Qed.

(** *** A decoder that is forced along one path *)

(** Every output row of the decoder has one entry per word, and the entries
    are log-probabilities: none is positive. *)
Definition well_formed (z_idx : list Q) : Prop :=
  forall hid w,
    length (fst (lstm_log_softmax z_idx hid w)) = vocab_len /\
    forall x, In x (fst (lstm_log_softmax z_idx hid w)) -> x <= 0.

(** [peaked eps L lp w]: word [w] has log-probability at least [- eps] in
    [lp] (probability about 1) and every other word at most [- L]
    (probability about 0). *)
Definition peaked (eps L : Q) (lp : list Q) (w : nat) : Prop :=
  (exists x, nth_error lp w = Some x /\ - eps <= x) /\
  (forall j x, nth_error lp j = Some x -> j <> w -> x <= - L).

(** The decoder predicts [a] at step 1 and [</s>] at step 2. *)
Definition forced (eps L : Q) (a : nat) (z_idx : list Q) : Prop :=
  let out1 := lstm_log_softmax z_idx (h (root_node z_idx)) bos in
  let out2 := lstm_log_softmax z_idx (snd out1) a in
  peaked eps L (fst out1) a /\ peaked eps L (fst out2) eos.

Lemma scores_cons z_idx P others :
  scores z_idx (P :: others)
  = map (fun x => x + logp P) (fst (lstm_log_softmax z_idx (h P) (wordid P)))
    ++ scores z_idx others.
Proof. reflexivity. Qed.

Lemma scores_length z_idx live :
  well_formed z_idx -> length (scores z_idx live) = (length live * vocab_len)%nat.
Proof.
  intros Hwf. induction live as [|P others IH].
  - reflexivity.
  - rewrite scores_cons, length_app, length_map, IH.
    rewrite (proj1 (Hwf (h P) (wordid P))). simpl. reflexivity.
Qed.

Lemma scores_le z_idx live B :
  well_formed z_idx ->
  (forall n, In n live -> logp n <= B) ->
  forall x, In x (scores z_idx live) -> x <= B.
Proof.
  intros Hwf. induction live as [|P others IH]; intros Hb x Hx.
  - contradiction.
  - rewrite scores_cons in Hx. apply in_app_or in Hx. destruct Hx as [Hx | Hx].
    + apply in_map_iff in Hx. destruct Hx as (y & <- & Hy).
      apply (proj2 (Hwf (h P) (wordid P))) in Hy.
      pose proof (Hb P (or_introl eq_refl)) as HP. Lqa.lra.
    + apply IH; [| exact Hx]. intros n Hn. apply Hb. right. exact Hn.
Qed.

Lemma collect_ok live dh t' :
  length dh = length live -> (0 < vocab_len)%nat ->
  forall sel completed live_new,
    (forall v i, In (v, i) sel -> (i < length live * vocab_len)%nat) ->
    exists cs ls,
      collect live dh t' sel completed live_new = Ok (completed ++ cs, live_new ++ ls) /\
      forall n, In n (cs ++ ls) -> exists i, In (logp n, i) sel.
Proof.
  intros Hdh Hv. induction sel as [|[v i] rest IH]; intros completed live_new Hin.
  - exists [], []. simpl. rewrite !app_nil_r. split; [reflexivity | contradiction].
  - simpl.
    assert (Hid : (i / vocab_len < length live)%nat).
    { apply Nat.Div0.div_lt_upper_bound.
      rewrite Nat.mul_comm. apply (Hin v i). left. reflexivity. }
    destruct (nth_error dh (i / vocab_len)) as [hid|] eqn:Eh;
      [| apply nth_error_None in Eh; lia].
    destruct (nth_error live (i / vocab_len)) as [parent|] eqn:Ep;
      [| apply nth_error_None in Ep; lia].
    assert (Hrest : forall v0 i0, In (v0, i0) rest -> (i0 < length live * vocab_len)%nat)
      by (intros v0 i0 H0; apply (Hin v0 i0); right; exact H0).
    destruct (i mod vocab_len =? eos)%nat.
    + destruct (IH (completed ++ [mkNode hid (Some parent) (i mod vocab_len) v t'])
                   live_new Hrest) as (cs & ls & Hc & Hl).
      exists (mkNode hid (Some parent) (i mod vocab_len) v t' :: cs), ls.
      rewrite Hc, <- app_assoc. split; [reflexivity |].
      intros n [<- | Hn].
      * exists i. left. reflexivity.
      * destruct (Hl n Hn) as [i' Hi']. exists i'. right. exact Hi'.
    + destruct (IH completed
                   (live_new ++ [mkNode hid (Some parent) (i mod vocab_len) v t'])
                   Hrest) as (cs & ls & Hc & Hl).
      exists cs, (mkNode hid (Some parent) (i mod vocab_len) v t' :: ls).
      rewrite Hc, <- app_assoc. split; [reflexivity |].
      intros n Hn. apply in_app_or in Hn. destruct Hn as [Hn | [<- | Hn]].
      * destruct (Hl n (in_or_app _ _ _ (or_introl Hn))) as [i' Hi'].
        exists i'. right. exact Hi'.
      * exists i. left. reflexivity.
      * destruct (Hl n (in_or_app _ _ _ (or_intror Hn))) as [i' Hi'].
        exists i'. right. exact Hi'.
Qed.

(** EXPAND succeeds as soon as there is a live hypothesis and [torch.topk] is
    asked for no more entries than there are. *)
Lemma expand_ok K z_idx st :
  well_formed z_idx -> (0 < vocab_len)%nat ->
  live_hypotheses st <> [] ->
  (Z.to_nat (K - Z.of_nat (length (completed_hypotheses st)))
   <= length (live_hypotheses st) * vocab_len)%nat ->
  forall B, (forall n, In n (live_hypotheses st) -> logp n <= B) ->
  exists cs ls,
    expand K z_idx st
    = Ok (mkState ls (completed_hypotheses st ++ cs) (t st + 1)) /\
    forall n, In n (cs ++ ls) -> logp n <= B.
Proof.
  intros Hwf Hv Hne Hk B HB. unfold expand.
  destruct (live_hypotheses st) as [|n0 live] eqn:El; [congruence |].
  destruct (topk _ _) as [sel|] eqn:Et.
  - edestruct (@collect_ok (n0 :: live)
                 (map (fun n => snd (lstm_log_softmax z_idx (h n) (wordid n))) (n0 :: live))
                 (t st + 1)%Z) as (cs & ls & Hc & Hl).
    + apply length_map.
    + exact Hv.
    + intros v i Hin. apply (topk_lookup _ _ Et) in Hin.
      rewrite <- (scores_length (n0 :: live) Hwf).
      apply nth_error_Some. congruence.
    + exists cs, ls. rewrite Hc. simpl. split; [reflexivity |].
      intros n Hn. destruct (Hl n Hn) as [i Hi].
      apply (topk_lookup _ _ Et) in Hi. apply nth_error_In in Hi.
      eapply scores_le; eassumption.
  - apply topk_range in Et. rewrite (scores_length (n0 :: live) Hwf) in Et. lia.
Qed.

(** EXPAND from a state whose first live hypothesis [P] is followed, with
    log-probability about 1, by the word [w]: the first new node is [P]
    extended by [w], and every other new node scores at most [B]. *)
Lemma forced_expand K z_idx st P others (eps L B : Q) (w : nat) (xw : Q) :
  well_formed z_idx ->
  live_hypotheses st = P :: others ->
  nth_error (fst (lstm_log_softmax z_idx (h P) (wordid P))) w = Some xw ->
  - eps <= xw ->
  (forall j x, nth_error (fst (lstm_log_softmax z_idx (h P) (wordid P))) j = Some x ->
               j <> w -> x <= - L) ->
  logp P - L <= B -> B < logp P - eps ->
  (forall n, In n others -> logp n <= B) ->
  (1 <= Z.to_nat (K - Z.of_nat (length (completed_hypotheses st))))%nat ->
  (Z.to_nat (K - Z.of_nat (length (completed_hypotheses st)))
   <= length (P :: others) * vocab_len)%nat ->
  let N := mkNode (snd (lstm_log_softmax z_idx (h P) (wordid P))) (Some P) w
                  (xw + logp P) (t st + 1) in
  exists cs ls,
    expand K z_idx st
    = Ok (mkState (if (w =? eos)%nat then ls else N :: ls)
                  (completed_hypotheses st ++ (if (w =? eos)%nat then N :: cs else cs))
                  (t st + 1)) /\
    forall n, In n (cs ++ ls) -> logp n <= B.
Proof.
  intros Hwf Hlive Hw Hxw Hoth HPB HBP Hothers Hk1 Hk N.
  assert (Hwlt : (w < vocab_len)%nat).
  { rewrite <- (proj1 (Hwf (h P) (wordid P))). apply nth_error_Some. congruence. }
  unfold expand. rewrite Hlive.
  destruct (topk _ _) as [sel|] eqn:Et.
  2:{ apply topk_range in Et. rewrite (scores_length (P :: others) Hwf) in Et. lia. }
  assert (Hm : nth_error (scores z_idx (P :: others)) w = Some (xw + logp P)).
  { rewrite scores_cons, nth_error_app1 by (rewrite length_map, (proj1 (Hwf _ _)); exact Hwlt).
    rewrite nth_error_map, Hw. reflexivity. }
  assert (Hlow : forall j x, nth_error (scores z_idx (P :: others)) j = Some x ->
                             j <> w -> x <= B).
  { intros j x Hj Hne. rewrite scores_cons in Hj.
    destruct (Nat.lt_ge_cases j vocab_len) as [Hjl | Hjg].
    - rewrite nth_error_app1 in Hj by (rewrite length_map, (proj1 (Hwf _ _)); exact Hjl).
      rewrite nth_error_map in Hj.
      destruct (nth_error _ j) as [y|] eqn:Ey; [| discriminate].
      simpl in Hj. inversion Hj; subst x.
      pose proof (Hoth _ _ Ey Hne). Lqa.lra.
    - rewrite nth_error_app2 in Hj by (rewrite length_map, (proj1 (Hwf _ _)); exact Hjg).
      apply nth_error_In in Hj. eapply scores_le; eassumption. }
  destruct (@topk_strict_max _ _ _ w (xw + logp P) sel Et Hk1 Hm) as (rest & -> & Hrest).
  { intros j x Hj Hne. pose proof (Hlow _ _ Hj Hne). Lqa.lra. }
  simpl collect.
  rewrite (Nat.div_small w vocab_len Hwlt), (Nat.mod_small w vocab_len Hwlt).
  simpl nth_error.
  assert (Hrange : forall v i, In (v, i) rest ->
                               (i < length (P :: others) * vocab_len)%nat).
  { intros v i Hin. destruct (Hrest v i Hin) as [_ Hn].
    rewrite <- (scores_length (P :: others) Hwf). apply nth_error_Some. congruence. }
  assert (Hdh : length (snd (lstm_log_softmax z_idx (h P) (wordid P))
                        :: map (fun n => snd (lstm_log_softmax z_idx (h n) (wordid n))) others)
                = length (P :: others))
    by (simpl; rewrite length_map; reflexivity).
  assert (Hv : (0 < vocab_len)%nat) by lia.
  assert (Hnodes : forall cs ls,
             (forall n, In n (cs ++ ls) -> exists i, In (logp n, i) rest) ->
             forall n, In n (cs ++ ls) -> logp n <= B).
  { intros cs ls Hl n Hn. destruct (Hl n Hn) as [i Hi].
    destruct (Hrest _ _ Hi) as [Hne Hnth]. exact (Hlow _ _ Hnth Hne). }
  subst N.
  destruct (w =? eos)%nat.
  - destruct (@collect_ok _ _ (t st + 1)%Z Hdh Hv rest
                (completed_hypotheses st ++ [(mkNode (snd (lstm_log_softmax z_idx (h P) (wordid P))) (Some P) w (xw + logp P) (t st + 1))]) [] Hrange) as (cs & ls & Hc & Hl).
    exists cs, ls. rewrite Hc. simpl. rewrite <- app_assoc. simpl.
    split; [reflexivity | apply Hnodes, Hl].
  - destruct (@collect_ok _ _ (t st + 1)%Z Hdh Hv rest
                (completed_hypotheses st) [(mkNode (snd (lstm_log_softmax z_idx (h P) (wordid P))) (Some P) w (xw + logp P) (t st + 1))] Hrange) as (cs & ls & Hc & Hl).
    exists cs, ls. rewrite Hc. simpl.
    split; [reflexivity | apply Hnodes, Hl].
Qed.

(** [dominated B best st]: [best] is among the completed hypotheses, and
    every other hypothesis in hand scores at most [B], strictly below it. *)
Definition dominated (B : Q) (best : BeamSearchNode) (st : beam_state) : Prop :=
  B < logp best /\
  exists pre post,
    completed_hypotheses st = pre ++ best :: post /\
    forall n, In n (pre ++ post ++ live_hypotheses st) -> logp n <= B.

Lemma finalize_dominated B best st :
  dominated B best st -> finalize st = Ok (rev (utterance best)).
Proof.
  intros (Hlt & pre & post & Hc & Hle). unfold finalize.
  rewrite Hc, <- app_assoc. simpl.
  destruct (@sort_desc_strict_max _ logp pre best (post ++ live_hypotheses st))
    as [tl ->].
  - intros y Hy. specialize (Hle y Hy). Lqa.lra.
  - reflexivity.
Qed.

Lemma expand_dominated K max_t z_idx B best st :
  well_formed z_idx -> (0 < vocab_len)%nat ->
  dominated B best st ->
  Z.of_nat (length (live_hypotheses st) + length (completed_hypotheses st)) = K ->
  loop_guard K max_t st = true ->
  exists st', expand K z_idx st = Ok st' /\ dominated B best st'.
Proof.
  intros Hwf Hv (Hlt & pre & post & Hc & Hle) Hsz G.
  apply loop_guard_true in G. destruct G as [Hck _].
  destruct (@expand_ok K z_idx st Hwf Hv) with (B := B) as (cs & ls & He & Hnew).
  - intros Hnil. rewrite Hnil in Hsz. simpl in Hsz. lia.
  - nia.
  - intros n Hn. apply Hle. apply in_or_app. right. apply in_or_app. right. exact Hn.
  - eexists. split; [exact He |].
    split; [exact Hlt |]. exists pre, (post ++ cs). simpl. split.
    + rewrite Hc, <- app_assoc. reflexivity.
    + intros n Hn.
      apply in_app_or in Hn. destruct Hn as [Hn | Hn].
      * apply Hle. apply in_or_app. left. exact Hn.
      * rewrite <- app_assoc in Hn. apply in_app_or in Hn. destruct Hn as [Hn | Hn].
        -- apply Hle. apply in_or_app. right. apply in_or_app. left. exact Hn.
        -- apply Hnew. exact Hn.
Qed.

Lemma loop_dominated K max_t z_idx B best fuel :
  well_formed z_idx -> (0 < vocab_len)%nat ->
  forall st,
    dominated B best st ->
    Z.of_nat (length (live_hypotheses st) + length (completed_hypotheses st)) = K ->
    exists st', beam_loop fuel K max_t z_idx st = Ok st' /\ dominated B best st'.
Proof.
  intros Hwf Hv. induction fuel as [|fuel IH]; intros st Hd Hsz; simpl.
  - exists st. split; [reflexivity | exact Hd].
  - destruct (loop_guard K max_t st) eqn:G.
    + destruct (@expand_dominated K max_t z_idx B best st Hwf Hv Hd Hsz G) as (st1 & He & Hd1).
      rewrite He. simpl.
      destruct (Z.of_nat (length (completed_hypotheses st1)) =? K)%Z.
      * exists st1. split; [reflexivity | exact Hd1].
      * apply IH; [exact Hd1 |].
        apply loop_guard_true in G. eapply expand_size; [apply G | exact He].
    + exists st. split; [reflexivity | exact Hd].
Qed.

Lemma beam_loop_S fuel K max_t z_idx st :
  beam_loop (S fuel) K max_t z_idx st
  = if loop_guard K max_t st then
      st' <- expand K z_idx st ;;
      if (Z.of_nat (length (completed_hypotheses st')) =? K)%Z
      then Ok st'
      else beam_loop fuel K max_t z_idx st'
    else Ok st.
Proof. reflexivity. Qed.

(** One example of the forced decoder, [K = 2] and [max_t = 3]. *)
Lemma forced_decode_example (eps L : Q) (a : nat) (z_idx : list Q) :
  a <> eos -> 2 * eps < L ->
  well_formed z_idx -> forced eps L a z_idx ->
  decode_example 2 3 z_idx = Ok [id2word bos; id2word a; id2word eos].
Proof.
  intros Hae HL Hwf [[(xa & Hxa & Hxa_lo) Hoth1] [(ye & Hye & Hye_lo) Hoth2]].
  set (root := root_node z_idx) in *.
  set (out1 := lstm_log_softmax z_idx (h root) bos) in *.
  set (out2 := lstm_log_softmax z_idx (snd out1) a) in *.
  assert (Hxa_hi : xa <= 0).
  { apply (proj2 (Hwf (h root) bos)). apply nth_error_In in Hxa. exact Hxa. }
  assert (Hye_hi : ye <= 0).
  { apply (proj2 (Hwf (snd out1) a)). apply nth_error_In in Hye. exact Hye. }
  assert (Ha : (a < vocab_len)%nat).
  { rewrite <- (proj1 (Hwf (h root) bos)). apply nth_error_Some.
    fold out1. congruence. }
  assert (He : (eos < vocab_len)%nat).
  { rewrite <- (proj1 (Hwf (snd out1) a)). apply nth_error_Some.
    fold out2. congruence. }
  assert (Hv : (0 < vocab_len)%nat) by lia.
  set (B := (1 # 10) - L).
  (* first EXPAND step *)
  destruct (@forced_expand 2 z_idx (init_state z_idx) root [] eps L B a xa Hwf eq_refl)
    as (cs1 & ls1 & He1 & Hb1); try assumption.
  { unfold B. simpl. Lqa.lra. }
  { unfold B. simpl. Lqa.lra. }
  { intros n []. }
  { simpl. lia. }
  { simpl. lia. }
  apply Nat.eqb_neq in Hae. rewrite Hae in He1.
  pose (A := mkNode (snd out1) (Some root) a (xa + logp root) 1).
  pose (st1 := mkState (A :: ls1) cs1 1).
  assert (He1' : expand 2 z_idx (init_state z_idx) = Ok st1) by exact He1.
  clear He1.
  assert (Hsz1 : Z.of_nat (length (live_hypotheses st1)
                           + length (completed_hypotheses st1)) = 2%Z).
  { eapply expand_size; [| exact He1']. simpl. lia. }
  unfold decode_example.
  change (Z.to_nat 3) with 3%nat.
  rewrite beam_loop_S.
  change (loop_guard 2 3 (init_state z_idx)) with true. cbv iota.
  rewrite He1'. cbn [bind].
  assert (Hlen1 : (S (length ls1) + length cs1 = 2)%nat).
  { unfold st1 in Hsz1. cbn [live_hypotheses completed_hypotheses length] in Hsz1. lia. }
  destruct (Z.eqb_spec (Z.of_nat (length (completed_hypotheses st1))) 2) as [E1 | _].
  { unfold st1 in E1. cbn [completed_hypotheses] in E1. lia. }
  (* second EXPAND step *)
  assert (G1 : loop_guard 2 3 st1 = true).
  { unfold loop_guard, st1. cbn [completed_hypotheses t]. apply andb_true_iff. split.
    - apply Z.ltb_lt. lia.
    - reflexivity. }
  destruct (@forced_expand 2 z_idx st1 A ls1 eps L B eos ye Hwf eq_refl)
    as (cs2 & ls2 & He2 & Hb2); try assumption.
  { unfold B. simpl. Lqa.lra. }
  { unfold B. simpl. Lqa.lra. }
  { intros n Hn. apply Hb1. apply in_or_app. right. exact Hn. }
  { unfold st1. cbn [completed_hypotheses]. lia. }
  { unfold st1. cbn [completed_hypotheses length].
    replace (Z.to_nat (2 - Z.of_nat (length cs1))) with (S (length ls1)) by lia.
    nia. }
  rewrite Nat.eqb_refl in He2.
  pose (AE := mkNode (snd out2) (Some A) eos (ye + logp A) 2).
  pose (st2 := mkState ls2 (cs1 ++ AE :: cs2) 2).
  assert (He2' : expand 2 z_idx st1 = Ok st2) by exact He2.
  clear He2.
  assert (Hd2 : dominated B AE st2).
  { split.
    - unfold B. simpl. Lqa.lra.
    - exists cs1, cs2. split; [reflexivity |].
      intros n Hn. apply in_app_or in Hn. destruct Hn as [Hn | Hn].
      + apply Hb1. apply in_or_app. left. exact Hn.
      + apply Hb2. exact Hn. }
  assert (Hsz2 : Z.of_nat (length (live_hypotheses st2)
                           + length (completed_hypotheses st2)) = 2%Z).
  { apply loop_guard_true in G1. eapply expand_size; [apply G1 | exact He2']. }
  rewrite beam_loop_S, G1, He2'. cbn [bind].
  assert (Hutt : rev (utterance AE) = [id2word bos; id2word a; id2word eos])
    by reflexivity.
  destruct (Z.of_nat (length (completed_hypotheses st2)) =? 2)%Z.
  - cbn [bind]. rewrite (finalize_dominated Hd2). rewrite Hutt. reflexivity.
  - destruct (@loop_dominated 2 3 z_idx B AE 1 Hwf Hv st2 Hd2 Hsz2) as (st3 & Hl & Hd3).
    rewrite Hl. cbn [bind]. rewrite (finalize_dominated Hd3). rewrite Hutt. reflexivity.
Qed.

(** C2 (as the code behaves): with a decoder that gives [a] log-probability
    about 0 at step 1 and [</s>] log-probability about 0 at step 2, every
    other word at most [- L] there, [beam_search_decode] with [K = 2] and
    [max_t = 3] returns for every example the words of [<s>], [a], [</s>]:
    the path is read back from the best hypothesis up to and including the
    root node, which carries the begin-of-sequence token. *)
Theorem forced_beam_search_decode (eps L : Q) (a : nat)
        (inp : latent_input) (z : list (list Q)) :
  latent_rows inp = Ok z ->
  a <> eos -> 2 * eps < L ->
  (forall z_idx, In z_idx z -> well_formed z_idx /\ forced eps L a z_idx) ->
  beam_search_decode inp 2 3
  = Ok (map (fun _ => [id2word bos; id2word a; id2word eos]) z).
Proof.
  intros Hz Hae HL Hall. unfold beam_search_decode. rewrite Hz. cbn [bind].
  apply for_each_all_ok. intros z_idx Hin.
  destruct (Hall z_idx Hin) as [Hwf Hf].
  exact (forced_decode_example Hae HL Hwf Hf).
Qed.

(** C1: the node that INIT builds holds the initial decoder state, the
    begin-of-sequence token, no parent and length 1, and it is the only live
    hypothesis with nothing completed; its cumulative log-probability is
    1/10, which is not 0. *)
Theorem root_node_logp (z_idx : list Q) :
  init_state z_idx = mkState [root_node z_idx] [] 0 /\
  h (root_node z_idx) = (tanh (trans_linear z_idx), trans_linear z_idx) /\
  prevNode (root_node z_idx) = None /\
  wordid (root_node z_idx) = bos /\
  leng (root_node z_idx) = 1%Z /\
  logp (root_node z_idx) = 1 # 10 /\
  ~ logp (root_node z_idx) == 0.
Proof.
  repeat split. simpl. intro Heq. discriminate Heq.
Qed.

(** C4: at the end of every EXPAND step, entered with the loop condition
    true, the live and the completed hypotheses together number at most [K]
    (there are exactly [K] of them). *)
Theorem expand_within_beam (K max_t : Z) (z_idx : list Q) (st st' : beam_state) :
  loop_guard K max_t st = true ->
  expand K z_idx st = Ok st' ->
  (Z.of_nat (length (live_hypotheses st') + length (completed_hypotheses st')) <= K)%Z.
Proof.
  intros G He. apply loop_guard_true in G.
  rewrite (expand_size _ _ (proj1 G) He). lia.
Qed.

(** C10: whenever an iteration of the loop starts (the state is reachable and
    the loop condition holds), the list of live hypotheses is not empty, so
    the step does not fail on [torch.cat] of an empty list: it selects
    [K - |completed|] entries or fails in [torch.topk]. *)
Theorem live_nonempty_at_expand (K max_t : Z) (z_idx : list Q) (st : beam_state) :
  reachable K max_t z_idx st ->
  loop_guard K max_t st = true ->
  live_hypotheses st <> [] /\
  (forall st', expand K z_idx st = Ok st' ->
     (length (live_hypotheses st') + length (completed_hypotheses st')
      = length (completed_hypotheses st)
        + Z.to_nat (K - Z.of_nat (length (completed_hypotheses st))))%nat) /\
  (expand K z_idx st = Raise RuntimeError ->
   topk (scores z_idx (live_hypotheses st))
        (Z.to_nat (K - Z.of_nat (length (completed_hypotheses st)))) = None).
Proof.
  intros Hr G.
  assert (Hne : live_hypotheses st <> []).
  { apply loop_guard_true in G. destruct G as [Hc _].
    destruct (reachable_size Hr) as [-> | Hsz].
    - discriminate.
    - intros Hnil. rewrite Hnil in Hsz. simpl in Hsz. lia. }
  split; [exact Hne |]. split.
  - intros st' He.
    destruct (expand_inv _ _ _ He) as (sel & _ & Ht & Hc & _).
    apply collect_length in Hc. apply topk_length in Ht.
    rewrite Hc, Ht. simpl. lia.
  - unfold expand.
    destruct (live_hypotheses st) as [|n0 live]; [congruence |].
    destruct (topk _ _) as [sel|]; [| reflexivity].
    destruct (collect _ _ _ _ _ _) as [[c' l']|e] eqn:Ec; simpl; [discriminate |].
    intros Heq. exfalso.
    revert Ec Heq. generalize (completed_hypotheses st) ([] : list BeamSearchNode).
    induction sel as [|[v i] rest IH]; intros c l Ec Heq; simpl in Ec.
    + discriminate.
    + destruct (nth_error _ (i / vocab_len)); [| congruence].
      destruct (nth_error (n0 :: live) (i / vocab_len)); [| congruence].
      destruct (i mod vocab_len =? eos)%nat; eapply IH; eassumption.
Qed.

(** *** The shape of the hypotheses the search holds *)

(** The token ids on the parent chain of a node, the node's own first. *)
Fixpoint tokens (n : BeamSearchNode) : list nat :=
  match n with
  | mkNode _ prev w _ _ =>
      w :: match prev with
           | Some p => tokens p
           | None => []
           end
  end.

Lemma node_chain_ind (P : BeamSearchNode -> Prop) :
  (forall hid w lp len, P (mkNode hid None w lp len)) ->
  (forall hid p w lp len, P p -> P (mkNode hid (Some p) w lp len)) ->
  forall n, P n.
Proof.
  intros Hroot Hchild. fix IH 1.
  intros [hid [p|] w lp len].
  - apply Hchild. apply IH.
  - apply Hroot.
Qed.

Lemma utterance_tokens n : utterance n = map id2word (tokens n).
Proof.
  induction n as [hid w lp len | hid p w lp len IH] using node_chain_ind.
  - reflexivity.
  - simpl. rewrite IH. reflexivity.
Qed.

Lemma tokens_child n p : prevNode n = Some p -> tokens n = wordid n :: tokens p.
Proof. destruct n as [hid prev w lp len]. simpl. intros ->. reflexivity. Qed.

Lemma tokens_head n : exists rest, tokens n = wordid n :: rest.
Proof. destruct n as [hid prev w lp len]. simpl. eexists. reflexivity. Qed.

(** [made_from live dh t' sel n]: [n] is the node the selection loop builds
    from one selected entry. *)
Definition made_from (live : list BeamSearchNode) (dh : list Hidden) (t' : Z)
           (sel : list (Q * nat)) (n : BeamSearchNode) : Prop :=
  exists v i hid parent,
    In (v, i) sel /\
    nth_error dh (i / vocab_len) = Some hid /\
    nth_error live (i / vocab_len) = Some parent /\
    n = mkNode hid (Some parent) (i mod vocab_len) v t'.

Lemma collect_inv live dh t' sel :
  forall completed live_new completed' live',
    collect live dh t' sel completed live_new = Ok (completed', live') ->
    exists cs ls,
      completed' = completed ++ cs /\ live' = live_new ++ ls /\
      (forall n, In n cs -> made_from live dh t' sel n /\ wordid n = eos) /\
      (forall n, In n ls -> made_from live dh t' sel n /\ wordid n <> eos).
Proof.
  induction sel as [|[v i] rest IH]; intros completed live_new completed' live' Hc;
    simpl in Hc.
  - inversion Hc; subst. exists [], []. rewrite !app_nil_r.
    repeat split; contradiction.
  - destruct (nth_error dh (i / vocab_len)) as [hid|] eqn:Eh; [| discriminate].
    destruct (nth_error live (i / vocab_len)) as [parent|] eqn:Ep; [| discriminate].
    assert (Hmade : made_from live dh t' ((v, i) :: rest)
                              (mkNode hid (Some parent) (i mod vocab_len) v t')).
    { exists v, i, hid, parent. repeat split; try assumption. left. reflexivity. }
    assert (Hweak : forall n, made_from live dh t' rest n ->
                              made_from live dh t' ((v, i) :: rest) n).
    { intros n (v' & i' & hid' & p' & Hin & H1 & H2 & H3).
      exists v', i', hid', p'. repeat split; try assumption. right. exact Hin. }
    destruct (i mod vocab_len =? eos)%nat eqn:Ew.
    + apply IH in Hc. destruct Hc as (cs & ls & -> & -> & Hcs & Hls).
      exists (mkNode hid (Some parent) (i mod vocab_len) v t' :: cs), ls.
      rewrite <- app_assoc. repeat split; try reflexivity.
      * destruct H as [<- | H]; [exact Hmade | apply Hweak, Hcs, H].
      * destruct H as [<- | H]; [apply Nat.eqb_eq, Ew | apply Hcs, H].
      * apply Hweak, Hls, H.
      * apply Hls, H.
    + apply IH in Hc. destruct Hc as (cs & ls & -> & -> & Hcs & Hls).
      exists cs, (mkNode hid (Some parent) (i mod vocab_len) v t' :: ls).
      rewrite <- app_assoc. repeat split; try reflexivity.
      * apply Hweak, Hcs, H.
      * apply Hcs, H.
      * destruct H as [<- | H]; [exact Hmade | apply Hweak, Hls, H].
      * destruct H as [<- | H]; [apply Nat.eqb_neq, Ew | apply Hls, H].
Qed.

Lemma made_from_parent live dh t' sel n :
  made_from live dh t' sel n ->
  exists parent, In parent live /\ prevNode n = Some parent.
Proof.
  intros (v & i & hid & parent & _ & _ & Hp & ->).
  exists parent. split; [eapply nth_error_In; exact Hp | reflexivity].
Qed.

(** What one EXPAND step adds: new completed nodes, all ending in [</s>],
    and the new live list, none ending in [</s>]. *)
Lemma expand_children K z_idx st st' :
  expand K z_idx st = Ok st' ->
  exists sel cs,
    topk (scores z_idx (live_hypotheses st))
         (Z.to_nat (K - Z.of_nat (length (completed_hypotheses st)))) = Some sel /\
    completed_hypotheses st' = completed_hypotheses st ++ cs /\
    t st' = (t st + 1)%Z /\
    (forall n, In n cs ->
       made_from (live_hypotheses st)
                 (map (fun m => snd (lstm_log_softmax z_idx (h m) (wordid m)))
                      (live_hypotheses st))
                 (t st + 1)%Z sel n /\ wordid n = eos) /\
    (forall n, In n (live_hypotheses st') ->
       made_from (live_hypotheses st)
                 (map (fun m => snd (lstm_log_softmax z_idx (h m) (wordid m)))
                      (live_hypotheses st))
                 (t st + 1)%Z sel n /\ wordid n <> eos).
Proof.
  intros He. destruct (expand_inv _ _ _ He) as (sel & _ & Ht & Hc & Htime).
  apply collect_inv in Hc. destruct Hc as (cs & ls & Hcs & Hls & Hc1 & Hc2).
  exists sel, cs. simpl in Hls. rewrite Hls.
  repeat split; try assumption; try (apply Hc1; assumption); apply Hc2; assumption.
Qed.

Definition live_ok (time : Z) (n : BeamSearchNode) : Prop :=
  (exists pre, tokens n = pre ++ [bos]) /\
  length (tokens n) = S (Z.to_nat time) /\
  (bos <> eos -> Forall (fun w => w <> eos) (tokens n)).

Definition completed_ok (time : Z) (n : BeamSearchNode) : Prop :=
  exists pre,
    tokens n = eos :: pre ++ [bos] /\
    (length (tokens n) <= S (Z.to_nat time))%nat /\
    (bos <> eos -> Forall (fun w => w <> eos) (pre ++ [bos])).

Definition state_ok (max_t : Z) (st : beam_state) : Prop :=
  (0 <= t st)%Z /\
  (Z.to_nat (t st) <= Z.to_nat max_t)%nat /\
  (forall n, In n (live_hypotheses st) -> live_ok (t st) n) /\
  (forall n, In n (completed_hypotheses st) -> completed_ok (t st) n).

Lemma reachable_ok K max_t z_idx st :
  reachable K max_t z_idx st -> state_ok max_t st.
Proof.
  induction 1 as [| st st' Hr IH G He].
  - split; [simpl; lia |]. split; [simpl; lia |]. split.
    + intros n [<- | []]. split; [exists []; reflexivity |].
      split; [reflexivity |].
      intros Hne. constructor; [exact Hne | constructor].
    + intros n [].
  - destruct IH as (Ht0 & Htm & Hlive & Hcomp).
    apply loop_guard_true in G. destruct G as [_ Hlt].
    destruct (expand_children _ _ _ He) as (sel & cs & _ & Hcs & Htime & Hc1 & Hc2).
    unfold state_ok. rewrite Htime. split; [lia |]. split; [lia |]. split.
    + intros n Hn. destruct (Hc2 n Hn) as [Hmade Hw].
      destruct (made_from_parent Hmade) as (parent & Hin & Hprev).
      destruct (Hlive parent Hin) as ((pre & Hpre) & Hlen & Hall).
      unfold live_ok. rewrite (tokens_child _ Hprev). split; [| split].
      * rewrite Hpre. exists (wordid n :: pre). reflexivity.
      * simpl. rewrite Hlen. lia.
      * intros Hne. constructor; [exact Hw | apply Hall, Hne].
    + intros n Hn. rewrite Hcs in Hn. apply in_app_or in Hn.
      destruct Hn as [Hn | Hn].
      * destruct (Hcomp n Hn) as (pre & Htok & Hlen & Hall).
        exists pre. split; [exact Htok |]. split; [lia | exact Hall].
      * destruct (Hc1 n Hn) as [Hmade Hw].
        destruct (made_from_parent Hmade) as (parent & Hin & Hprev).
        destruct (Hlive parent Hin) as ((pre & Hpre) & Hlen & Hall).
        unfold completed_ok. exists pre. rewrite (tokens_child _ Hprev), Hw, Hpre.
        split; [reflexivity |].
        split.
        -- simpl. rewrite <- Hpre, Hlen. lia.
        -- intros Hne. rewrite <- Hpre. apply Hall, Hne.
Qed.

(** With the fuel of [decode_example] the loop stops on its own: the loop
    condition is false, or the [break] was taken. *)
Lemma beam_loop_exit K max_t z_idx fuel :
  forall st st',
    (max_t - t st <= Z.of_nat fuel)%Z ->
    beam_loop fuel K max_t z_idx st = Ok st' ->
    loop_guard K max_t st' = false \/
    Z.of_nat (length (completed_hypotheses st')) = K.
Proof.
  induction fuel as [|fuel IH]; intros st st' Hfuel Hl; simpl in Hl.
  - inversion Hl; subst. left. unfold loop_guard.
    destruct (Z.ltb_spec (t st') max_t); [lia |]. apply andb_false_r.
  - destruct (loop_guard K max_t st) eqn:G.
    + destruct (expand K z_idx st) as [st1|e] eqn:He; simpl in Hl; [| discriminate].
      destruct (Z.eqb_spec (Z.of_nat (length (completed_hypotheses st1))) K) as [E | _].
      * injection Hl as <-. right. exact E.
      * apply (IH st1 st'); [| exact Hl].
        destruct (expand_inv _ _ _ He) as (_ & _ & _ & _ & Ht). rewrite Ht. lia.
    + inversion Hl; subst. left. exact G.
Qed.

(** FINALIZE decodes a hypothesis that no other hypothesis outscores. *)
Lemma finalize_chooses st ws :
  finalize st = Ok ws ->
  exists n,
    In n (completed_hypotheses st ++ live_hypotheses st) /\
    ws = rev (utterance n) /\
    forall m, In m (completed_hypotheses st ++ live_hypotheses st) ->
              logp m <= logp n.
Proof.
  unfold finalize. intros Hf.
  pose proof (sort_desc_perm logp (completed_hypotheses st ++ live_hypotheses st)) as Hp.
  pose proof (sort_desc_sorted logp (completed_hypotheses st ++ live_hypotheses st)) as Hs.
  destruct (sort_desc logp _) as [|n tl]; [discriminate |].
  inversion Hf; subst ws. exists n. split; [| split; [reflexivity |]].
  - apply (Permutation_in _ Hp). left. reflexivity.
  - intros m Hm. apply (Permutation_in _ (Permutation_sym Hp)) in Hm.
    destruct Hm as [<- | Hm]; [apply Qle_refl |].
    inversion Hs as [|? ? _ Hall]; subst.
    rewrite Forall_forall in Hall. exact (Hall m Hm).
Qed.

(** The state [decode_example] finalizes. *)
Lemma decode_example_inv K max_t z_idx ws :
  decode_example K max_t z_idx = Ok ws ->
  exists st,
    beam_loop (Z.to_nat max_t) K max_t z_idx (init_state z_idx) = Ok st /\
    reachable K max_t z_idx st /\
    (loop_guard K max_t st = false \/
     Z.of_nat (length (completed_hypotheses st)) = K) /\
    finalize st = Ok ws.
Proof.
  unfold decode_example. intros Hd.
  destruct (beam_loop _ _ _ _ _) as [st|e] eqn:Hl; simpl in Hd; [| discriminate].
  exists st. split; [reflexivity |]. split; [| split; [| exact Hd]].
  - eapply beam_loop_reachable; [apply reach_init | exact Hl].
  - eapply beam_loop_exit; [| exact Hl]. simpl. lia.
Qed.

Lemma for_each_in {A B : Type} (f : A -> result B) (l : list A) (ys : list B) :
  for_each f l = Ok ys -> forall y, In y ys -> exists x, In x l /\ f x = Ok y.
Proof.
  revert ys. induction l as [|x rest IH]; intros ys Hf y Hy; simpl in Hf.
  - inversion Hf; subst. contradiction.
  - destruct (f x) as [y0|e] eqn:Ex; simpl in Hf; [| discriminate].
    destruct (for_each f rest) as [ys0|e] eqn:Er; simpl in Hf; [| discriminate].
    inversion Hf; subst. destruct Hy as [<- | Hy].
    + exists x. split; [left; reflexivity | exact Ex].
    + destruct (IH ys0 eq_refl y Hy) as (x' & Hin & Hx').
      exists x'. split; [right; exact Hin | exact Hx'].
Qed.

Lemma beam_search_decode_in inp K max_t out ws :
  beam_search_decode inp K max_t = Ok out -> In ws out ->
  exists z_idx, decode_example K max_t z_idx = Ok ws.
Proof.
  unfold beam_search_decode. intros Hb Hin.
  destruct (latent_rows inp) as [z|e]; simpl in Hb; [| discriminate].
  destruct (for_each_in _ _ Hb ws Hin) as (z_idx & _ & Hd).
  exists z_idx. exact Hd.
Qed.

Lemma beam_loop_no_step fuel K max_t z_idx st :
  loop_guard K max_t st = false -> beam_loop fuel K max_t z_idx st = Ok st.
Proof. intros G. destruct fuel; simpl; [| rewrite G]; reflexivity. Qed.

(** X1: A beam width or a step budget that is not positive: the loop body never
    runs, and every example decodes to the word of the root node alone. *)
Theorem no_search_returns_bos (inp : latent_input) (z : list (list Q)) (K max_t : Z) :
  latent_rows inp = Ok z ->
  (K <= 0 \/ max_t <= 0)%Z ->
  beam_search_decode inp K max_t = Ok (map (fun _ => [id2word bos]) z).
Proof.
  intros Hz Hno. unfold beam_search_decode. rewrite Hz. cbn [bind].
  apply for_each_all_ok. intros z_idx _. unfold decode_example.
  rewrite beam_loop_no_step.
  - reflexivity.
  - unfold loop_guard, init_state. cbn [completed_hypotheses t length].
    destruct Hno as [HK | HT].
    + destruct (Z.ltb_spec (Z.of_nat 0) K); [simpl in *; lia | reflexivity].
    + destruct (Z.ltb_spec 0 max_t); [lia | apply andb_false_r].
Qed.

(** X2: A beam wider than the vocabulary: the first EXPAND step asks
    [torch.topk] for more entries than one row of log-probabilities holds,
    and the whole call raises. *)
Theorem beam_wider_than_vocabulary (inp : latent_input) (z_idx : list Q)
        (rest : list (list Q)) (K max_t : Z) :
  latent_rows inp = Ok (z_idx :: rest) ->
  length (fst (lstm_log_softmax z_idx (h (root_node z_idx)) bos)) = vocab_len ->
  (Z.of_nat vocab_len < K)%Z -> (0 < max_t)%Z ->
  beam_search_decode inp K max_t = Raise RuntimeError.
Proof.
  intros Hz Hrow HK HT. unfold beam_search_decode. rewrite Hz. cbn [bind for_each].
  unfold decode_example.
  destruct (Z.to_nat max_t) as [|fuel] eqn:Ef; [lia |].
  rewrite beam_loop_S.
  assert (G : loop_guard K max_t (init_state z_idx) = true).
  { unfold loop_guard, init_state. cbn [completed_hypotheses t length].
    apply andb_true_iff. split; apply Z.ltb_lt; simpl; lia. }
  rewrite G. unfold expand, init_state.
  cbn [live_hypotheses completed_hypotheses length].
  destruct (topk _ _) as [sel|] eqn:Et; [| reflexivity].
  exfalso.
  match type of Et with
  | topk ?xs ?k = _ => assert (Hnone : topk xs k = None)
  end.
  { apply topk_range. rewrite scores_cons, length_app, length_map.
    change (wordid (root_node z_idx)) with bos. rewrite Hrow.
    simpl. lia. }
  congruence.
Qed.

(** X3: every completed hypothesis ends in [</s>]; and, the begin and end
    tokens being different, no live hypothesis does. *)
Theorem completed_end_in_eos (K max_t : Z) (z_idx : list Q) (st : beam_state) :
  reachable K max_t z_idx st ->
  (forall n, In n (completed_hypotheses st) -> wordid n = eos) /\
  (bos <> eos -> forall n, In n (live_hypotheses st) -> wordid n <> eos).
Proof.
  intros Hr. destruct (reachable_ok Hr) as (_ & _ & Hlive & Hcomp). split.
  - intros n Hn. destruct (Hcomp n Hn) as (pre & Htok & _).
    destruct (tokens_head n) as [rest Hhd]. congruence.
  - intros Hne n Hn. destruct (Hlive n Hn) as (_ & _ & Hall).
    specialize (Hall Hne). destruct (tokens_head n) as [rest Hhd].
    rewrite Hhd in Hall. inversion Hall; assumption.
Qed.

Lemma chosen_tokens K max_t z_idx st n :
  reachable K max_t z_idx st ->
  In n (completed_hypotheses st ++ live_hypotheses st) ->
  (exists pre, tokens n = pre ++ [bos]) /\
  (length (tokens n) <= S (Z.to_nat max_t))%nat.
Proof.
  intros Hr Hn. destruct (reachable_ok Hr) as (_ & Htm & Hlive & Hcomp).
  apply in_app_or in Hn. destruct Hn as [Hn | Hn].
  - destruct (Hcomp n Hn) as (pre & Htok & Hlen & _). split; [| lia].
    exists (eos :: pre). rewrite Htok. reflexivity.
  - destruct (Hlive n Hn) as (Hpre & Hlen & _). split; [exact Hpre | lia].
Qed.

(** X4: every decoded sequence starts with the word of the begin-of-sequence
    token and has at most [max(max_t, 0) + 1] words: the root and one word
    per step taken, and no step is taken when [max_t] is not positive. *)
Theorem decoded_starts_at_root (inp : latent_input) (K max_t : Z)
        (out : list (list string)) (ws : list string) :
  beam_search_decode inp K max_t = Ok out -> In ws out ->
  (exists rest, ws = id2word bos :: rest) /\
  (Z.of_nat (length ws) <= Z.max max_t 0 + 1)%Z.
Proof.
  intros Hb Hin.
  cut ((exists rest, ws = id2word bos :: rest) /\
       (length ws <= S (Z.to_nat max_t))%nat); [intros [H1 H2]; split; [exact H1 | lia] |].
  destruct (@beam_search_decode_in _ _ _ _ _ Hb Hin) as (z_idx & Hd).
  destruct (@decode_example_inv _ _ _ _ Hd) as (st & _ & Hr & _ & Hf).
  destruct (@finalize_chooses _ _ Hf) as (n & Hn & -> & _).
  destruct (@chosen_tokens _ _ _ _ _ Hr Hn) as ((pre & Hpre) & Hlen).
  rewrite utterance_tokens, <- map_rev, length_map, length_rev.
  split; [| exact Hlen].
  rewrite Hpre, rev_app_distr. simpl. eexists. reflexivity.
Qed.

Lemma Forall_removelast {A : Type} (P : A -> Prop) (l : list A) :
  Forall P l -> Forall P (removelast l).
Proof.
  induction 1 as [|x l Hx Hl IH]; [constructor |].
  simpl. destruct l; [constructor |]. constructor; assumption.
Qed.

(** X5: with a beam of at least one and different begin and end tokens, the
    end-of-sequence token occurs in a decoded sequence only as its last
    token; and a decoded sequence either ends in it or was cut by the step
    budget, in which case it has exactly [max(max_t, 0) + 1] tokens (the
    begin token alone when [max_t] is not positive). *)
Theorem eos_only_at_end (inp : latent_input) (K max_t : Z)
        (out : list (list string)) (ws : list string) :
  (1 <= K)%Z -> bos <> eos ->
  beam_search_decode inp K max_t = Ok out -> In ws out ->
  exists toks,
    ws = map id2word toks /\
    Forall (fun w => w <> eos) (removelast toks) /\
    (last toks bos = eos \/ Z.of_nat (length toks) = (Z.max max_t 0 + 1)%Z).
Proof.
  intros HK Hne Hb Hin.
  cut (exists toks,
          ws = map id2word toks /\
          Forall (fun w => w <> eos) (removelast toks) /\
          (last toks bos = eos \/ length toks = S (Z.to_nat max_t))).
  { intros (toks & H1 & H2 & [H3 | H3]); exists toks;
      (split; [exact H1 | split; [exact H2 |]]); [left; exact H3 | right; lia]. }
  destruct (@beam_search_decode_in _ _ _ _ _ Hb Hin) as (z_idx & Hd).
  destruct (@decode_example_inv _ _ _ _ Hd) as (st & _ & Hr & Hexit & Hf).
  destruct (@finalize_chooses _ _ Hf) as (n & Hn & -> & _).
  destruct (reachable_ok Hr) as (Ht0 & Htm & Hlive & Hcomp).
  exists (rev (tokens n)). split; [rewrite utterance_tokens, map_rev; reflexivity |].
  apply in_app_or in Hn. destruct Hn as [Hn | Hn].
  - destruct (Hcomp n Hn) as (pre & Htok & _ & Hall). rewrite Htok.
    change (eos :: pre ++ [bos]) with ([eos] ++ (pre ++ [bos])).
    rewrite rev_app_distr. simpl rev at 2. split.
    + rewrite removelast_last. apply Forall_rev, Hall, Hne.
    + left. apply last_last.
  - destruct (Hlive n Hn) as (_ & Hlen & Hall). split.
    + apply Forall_removelast, Forall_rev, Hall, Hne.
    + right. rewrite length_rev, Hlen. f_equal.
      assert (Hlive_ne : live_hypotheses st <> []) by (intros E; rewrite E in Hn; exact Hn).
      assert (Hfull : forall c : Z, (K <= c)%Z ->
                        c = Z.of_nat (length (completed_hypotheses st)) -> False).
      { intros c Hc ->. destruct (reachable_size Hr) as [-> | Hsz].
        - simpl in Hc. lia.
        - destruct (live_hypotheses st); [congruence | simpl in Hsz; lia]. }
      destruct Hexit as [G | E].
      * unfold loop_guard in G. apply andb_false_iff in G. destruct G as [G | G].
        -- apply Z.ltb_ge in G. exfalso. eapply Hfull; [exact G | reflexivity].
        -- apply Z.ltb_ge in G. lia.
      * exfalso. apply (Hfull K); [lia | symmetry; exact E].
Qed.

(** X6: the decoded sequence is that of a hypothesis, completed or still live
    when the loop stopped, that no other outscores in cumulative [logp]. *)
Theorem decoded_is_best_scored (K max_t : Z) (z_idx : list Q) (ws : list string) :
  decode_example K max_t z_idx = Ok ws ->
  exists st n,
    beam_loop (Z.to_nat max_t) K max_t z_idx (init_state z_idx) = Ok st /\
    In n (completed_hypotheses st ++ live_hypotheses st) /\
    ws = rev (utterance n) /\
    forall m, In m (completed_hypotheses st ++ live_hypotheses st) ->
              logp m <= logp n.
Proof.
  intros Hd. destruct (@decode_example_inv _ _ _ _ Hd) as (st & Hl & _ & _ & Hf).
  destruct (@finalize_chooses _ _ Hf) as (n & Hn & Hws & Hmax).
  exists st, n. repeat split; assumption.
Qed.

(** *** The scores along a parent chain *)

(** [consistent z n]: the root of [n]'s chain is the root node of example
    [z], and every node below it carries the state the decoder returned for
    its parent and the parent's [logp] plus the decoder's log-probability of
    its own word. *)
Fixpoint consistent (z_idx : list Q) (n : BeamSearchNode) : Prop :=
  match n with
  | mkNode hid prev w lp _ =>
      match prev with
      | None => hid = h (root_node z_idx) /\ w = bos /\ lp = 1 # 10
      | Some p =>
          consistent z_idx p /\
          hid = snd (lstm_log_softmax z_idx (h p) (wordid p)) /\
          exists x, nth_error (fst (lstm_log_softmax z_idx (h p) (wordid p))) w = Some x /\
                    lp = x + logp p
      end
  end.

Lemma scores_lookup z_idx live :
  well_formed z_idx ->
  forall i v,
    nth_error (scores z_idx live) i = Some v ->
    exists parent x,
      nth_error live (i / vocab_len) = Some parent /\
      nth_error (fst (lstm_log_softmax z_idx (h parent) (wordid parent)))
                (i mod vocab_len) = Some x /\
      v = x + logp parent.
Proof.
  intros Hwf. induction live as [|P others IH]; intros i v Hi.
  - destruct i; discriminate.
  - assert (Hv : (0 < vocab_len)%nat).
    { assert (Hs : (i < length (scores z_idx (P :: others)))%nat)
        by (apply nth_error_Some; congruence).
      rewrite (scores_length (P :: others) Hwf) in Hs.
      destruct vocab_len; [rewrite Nat.mul_0_r in Hs; lia | lia]. }
    rewrite scores_cons in Hi.
    destruct (Nat.lt_ge_cases i vocab_len) as [Hlt | Hge].
    + rewrite nth_error_app1 in Hi by (rewrite length_map, (proj1 (Hwf _ _)); exact Hlt).
      rewrite nth_error_map in Hi.
      destruct (nth_error _ i) as [x|] eqn:Ex; [| discriminate].
      simpl in Hi. inversion Hi; subst v.
      exists P, x. rewrite (Nat.div_small i vocab_len Hlt), (Nat.mod_small i vocab_len Hlt).
      repeat split. exact Ex.
    + rewrite nth_error_app2 in Hi by (rewrite length_map, (proj1 (Hwf _ _)); exact Hge).
      rewrite length_map, (proj1 (Hwf _ _)) in Hi.
      destruct (IH _ _ Hi) as (parent & x & Hp & Hx & Hvx).
      exists parent, x.
      replace i with (1 * vocab_len + (i - vocab_len))%nat at 1 2 by lia.
      rewrite Nat.div_add_l by lia.
      rewrite (Nat.add_comm (1 * vocab_len)), Nat.Div0.mod_add.
      repeat split; assumption.
Qed.

Lemma consistent_bound z_idx n :
  well_formed z_idx -> consistent z_idx n -> logp n <= 1 # 10.
Proof.
  intros Hwf.
  induction n as [hid w lp len | hid p w lp len IH] using node_chain_ind;
    simpl; intros Hc.
  - destruct Hc as (_ & _ & ->). apply Qle_refl.
  - destruct Hc as (Hp & _ & x & Hx & ->).
    specialize (IH Hp). apply nth_error_In in Hx.
    apply (proj2 (Hwf _ _)) in Hx. Lqa.lra.
Qed.

(** X7: the cumulative score of every hypothesis in hand is the 1/10 of the
    root node plus the decoder's log-probabilities of its words, one per
    step along its chain; with log-probabilities at most 0 it never exceeds
    1/10. *)
Theorem scores_accumulate (K max_t : Z) (z_idx : list Q) (st : beam_state) :
  well_formed z_idx ->
  reachable K max_t z_idx st ->
  forall n, In n (live_hypotheses st ++ completed_hypotheses st) ->
            consistent z_idx n /\ logp n <= 1 # 10.
Proof.
  intros Hwf Hr.
  assert (Hall : forall n, In n (live_hypotheses st ++ completed_hypotheses st) ->
                           consistent z_idx n).
  { induction Hr as [| st st' Hr IH G He].
    - intros n [<- | []]. simpl. repeat split.
    - destruct (expand_children _ _ _ He) as (sel & cs & Ht & Hcs & _ & Hc1 & Hc2).
      assert (Hnew : forall n,
                 made_from (live_hypotheses st)
                   (map (fun m => snd (lstm_log_softmax z_idx (h m) (wordid m)))
                        (live_hypotheses st))
                   (t st + 1)%Z sel n -> consistent z_idx n).
      { intros n (v & i & hid & parent & Hin & Hh & Hp & ->).
        apply (topk_lookup _ _ Ht) in Hin.
        destruct (scores_lookup _ Hwf _ Hin) as (parent' & x & Hp' & Hx & Hv).
        rewrite Hp in Hp'. inversion Hp'; subst parent'.
        rewrite nth_error_map, Hp in Hh. simpl in Hh. inversion Hh; subst hid.
        simpl. split; [| split; [reflexivity |]].
        - apply IH. apply in_or_app. left. eapply nth_error_In. exact Hp.
        - exists x. split; assumption. }
      intros n Hn. apply in_app_or in Hn. destruct Hn as [Hn | Hn].
      + apply Hnew, Hc2, Hn.
      + rewrite Hcs in Hn. apply in_app_or in Hn. destruct Hn as [Hn | Hn].
        * apply IH. apply in_or_app. right. exact Hn.
        * apply Hnew, Hc1, Hn. }
  intros n Hn. split; [apply Hall, Hn | apply (consistent_bound _ Hwf), Hall, Hn].
Qed.

End LSTMDecoder.
End Beam.

(** ** Latent sample tensors

    A tensor of shape [size0 x size1 x size2] as the decoders receive it:
    [c.size()] reads the three sizes, [c.view(size1 * size0, size2)] lists
    the rows. *)

Record Tensor3 : Type :=
  mkTensor3 { size0 : nat;
              size1 : nat;
              size2 : nat;
              data : list (list (list Q)) }.

Definition view2 (x : Tensor3) : list (list Q) := concat (data x).

(** ** [ContentDecoder.decode] *)

Module Greedy.
Local Open Scope Q_scope.
#[local] Set Default Proof Using "Type".

(** [torch.argmax] on one row: the index of the first maximal value. *)
Fixpoint argmax_from (best : Q) (best_i i : nat) (l : list Q) : nat :=
  match l with
  | [] => best_i
  | x :: rest =>
      if Qle_bool x best
      then argmax_from best best_i (S i) rest
      else argmax_from x i (S i) rest
  end.

Definition argmax (l : list Q) : result nat :=
  match l with
  | [] => Raise IndexError
  | x :: rest => Ok (argmax_from x 0 1 rest)
  end.

Section ContentDecoder.
Variable Vec : Type.                           (* one row of an LSTM state tensor *)
Variable Gen : Type.                           (* state of the random generator *)
Variables bos eos : nat.                       (* [self.vocab["<s>"]], [self.vocab["</s>"]] *)
Variable id2word : nat -> string.              (* [self.vocab.id2word] *)
Variable trans_linear : list Q -> Vec.         (* [self.trans_linear], one row *)
Variable tanh : Vec -> Vec.                    (* [torch.tanh], one row *)

Definition Hidden : Type := (Vec * Vec)%type.

(** One row of [self.embed], [self.lstm] and [self.pred_linear]: from the
    latent row, the state and the input token to the logits and the next
    state. *)
Variable lstm_logits : list Q -> Hidden -> nat -> list Q * Hidden.

(** [F.softmax] followed by [torch.multinomial] on one row. *)
Variable multinomial : Gen -> list Q -> nat * Gen.

Record decode_state : Type :=
  mkDecode { decoder_input : list nat;
             decoder_hidden : list Hidden;
             mask : list bool;
             decoded_batch : list (list string);
             length_c : Z;
             gen : Gen }.

Fixpoint sample_rows (g : Gen) (logits : list (list Q)) : list nat * Gen :=
  match logits with
  | [] => ([], g)
  | row :: rest =>
      let (i, g1) := multinomial g row in
      let (others, g2) := sample_rows g1 rest in
      (i :: others, g2)
  end.

Definition select (greedy : bool) (g : Gen) (output_logits : list (list Q))
  : result (list nat * Gen) :=
  if greedy then
    idx <- for_each argmax output_logits ;;
    Ok (idx, g)
  else Ok (sample_rows g output_logits).

(** [mask.sum().item() != 0 and length_c < 100] *)
Definition loop_guard (st : decode_state) : bool :=
  existsb (fun m => m) (mask st) && (length_c st <? 100)%Z.

(** The body of the [while] loop. *)
Definition decode_step (greedy : bool) (c : list (list Q)) (st : decode_state)
  : result decode_state :=
  let outs :=
    map (fun r => lstm_logits (fst (fst r)) (snd (fst r)) (snd r))
        (combine (combine c (decoder_hidden st)) (decoder_input st)) in
  let output_logits := map fst outs in
  sel <- select greedy (gen st) output_logits ;;
  let select_index := fst sel in
  let decoded :=
    map (fun r : list string * bool * nat =>
           if snd (fst r)
                  then fst (fst r) ++ [id2word (snd r)]
                  else fst (fst r))
        (combine (combine (decoded_batch st) (mask st)) select_index) in
  let mask' :=
    map (fun r : nat * bool => negb (fst r =? eos)%nat && snd r)
        (combine select_index (mask st)) in
  Ok (mkDecode select_index (map snd outs) mask' decoded (length_c st + 1) (snd sel)).

Fixpoint decode_loop (fuel : nat) (greedy : bool) (c : list (list Q))
         (st : decode_state) : result decode_state :=
  match fuel with
  | O => Ok st
  | S fuel' =>
      if loop_guard st then
        st' <- decode_step greedy c st ;;
        decode_loop fuel' greedy c st'
      else Ok st
  end.

Definition decode_init (g : Gen) (c : list (list Q)) : decode_state :=
  let c_init := map trans_linear c in
  let h_init := map tanh c_init in
  mkDecode (map (fun _ => bos) c)
           (combine h_init c_init)
           (map (fun _ => true) c)
           (map (fun _ => @nil string) c)
           1
           g.

(** [length_c] starts at 1 and the loop stops at 100: 99 iterations at most
    (see [decode_loop_fuel]). *)
Definition decode (g : Gen) (c : Tensor3) (greedy : bool)
  : result (list (list string) * Gen) :=
  if negb (size0 c =? 1)%nat then Raise AssertionError
  else
    let rows := view2 c in
    st <- decode_loop 99 greedy rows (decode_init g rows) ;;
    Ok (decoded_batch st, gen st).

(** *** Termination *)

Lemma decode_step_length greedy c st st' :
  decode_step greedy c st = Ok st' -> length_c st' = (length_c st + 1)%Z.
Proof.
  unfold decode_step. destruct (select _ _ _) as [sel|e]; simpl; [| discriminate].
  intros Heq. inversion Heq. reflexivity.
Qed.

Lemma decode_loop_fuel greedy c fuel :
  forall st, (100 - length_c st <= Z.of_nat fuel)%Z ->
             decode_loop (S fuel) greedy c st = decode_loop fuel greedy c st.
Proof.
  induction fuel as [|fuel IH]; intros st Hfuel.
  - simpl. unfold loop_guard.
    destruct (Z.ltb_spec (length_c st) 100); [lia |].
    rewrite andb_false_r. reflexivity.
  - change (decode_loop (S (S fuel)) greedy c st)
      with (if loop_guard st
            then st' <- decode_step greedy c st ;; decode_loop (S fuel) greedy c st'
            else Ok st).
    change (decode_loop (S fuel) greedy c st)
      with (if loop_guard st
            then st' <- decode_step greedy c st ;; decode_loop fuel greedy c st'
            else Ok st).
    destruct (loop_guard st); [| reflexivity].
    destruct (decode_step greedy c st) as [st'|e] eqn:Es; [| reflexivity].
    simpl. apply IH. rewrite (decode_step_length _ _ _ Es). lia.
Qed.

(** [decode] gives the loop 99 units of fuel, which is all the loop can
    use. *)
Lemma decode_loop_enough greedy g c extra :
  decode_loop (99 + extra) greedy c (decode_init g c)
  = decode_loop 99 greedy c (decode_init g c).
Proof.
  induction extra as [|extra IH].
  - rewrite Nat.add_0_r. reflexivity.
  - rewrite Nat.add_succ_r, decode_loop_fuel; [exact IH |].
    unfold decode_init. cbn [length_c]. lia.
Qed.

(** *** A batch whose rows all follow the same script *)

Definition rows_state (f_in : list Q -> nat) (f_h : list Q -> Hidden)
           (f_m : list Q -> bool) (f_d : list Q -> list string)
           (len : Z) (g : Gen) (rows : list (list Q)) : decode_state :=
  mkDecode (map f_in rows) (map f_h rows) (map f_m rows) (map f_d rows) len g.

Lemma combine_map_map {A B C : Type} (f : A -> B) (k : A -> C) (l : list A) :
  combine (map f l) (map k l) = map (fun x => (f x, k x)) l.
Proof.
  induction l as [|x rest IH]; simpl; [reflexivity | rewrite IH; reflexivity].
Qed.

Lemma combine_self_map {A C : Type} (k : A -> C) (l : list A) :
  combine l (map k l) = map (fun x => (x, k x)) l.
Proof.
  induction l as [|x rest IH]; simpl; [reflexivity | rewrite IH; reflexivity].
Qed.

Lemma for_each_map_ok {A B C : Type} (f : B -> result C) (k : A -> B) (r : A -> C)
      (l : list A) :
  (forall x, In x l -> f (k x) = Ok (r x)) -> for_each f (map k l) = Ok (map r l).
Proof.
  induction l as [|x rest IH]; intros Hall; simpl.
  - reflexivity.
  - rewrite (Hall x (or_introl eq_refl)). simpl.
    rewrite IH by (intros y Hy; apply Hall; right; exact Hy).
    reflexivity.
Qed.

Lemma decode_init_rows g rows :
  decode_init g rows
  = rows_state (fun _ => bos) (fun r => (tanh (trans_linear r), trans_linear r))
               (fun _ => true) (fun _ => []) 1 g rows.
Proof.
  unfold decode_init, rows_state. f_equal.
  rewrite map_map. apply combine_map_map.
Qed.

Lemma decode_step_rows rows f_in f_h f_m f_d len g sel h' m' d' :
  (forall r, In r rows -> argmax (fst (lstm_logits r (f_h r) (f_in r))) = Ok (sel r)) ->
  (forall r, In r rows -> h' r = snd (lstm_logits r (f_h r) (f_in r))) ->
  (forall r, In r rows -> m' r = negb (sel r =? eos)%nat && f_m r) ->
  (forall r, In r rows ->
             d' r = if f_m r then f_d r ++ [id2word (sel r)] else f_d r) ->
  decode_step true rows (rows_state f_in f_h f_m f_d len g rows)
  = Ok (rows_state sel h' m' d' (len + 1) g rows).
Proof.
  intros Hsel Hh Hm Hd. unfold decode_step, rows_state. simpl.
  rewrite combine_self_map, combine_map_map, !map_map. simpl.
  rewrite (for_each_map_ok argmax _ sel rows Hsel). simpl.
  rewrite !combine_map_map, !map_map. simpl.
  f_equal. f_equal.
  - apply map_ext_in. intros r Hr. symmetry. apply Hh, Hr.
  - apply map_ext_in. intros r Hr. symmetry. apply Hm, Hr.
  - apply map_ext_in. intros r Hr. symmetry. apply Hd, Hr.
Qed.

(** The greedy choice is [a] at step 1 and [</s>] at step 2. *)
Definition forced (a : nat) (c_i : list Q) : Prop :=
  let out1 := lstm_logits c_i (tanh (trans_linear c_i), trans_linear c_i) bos in
  let out2 := lstm_logits c_i (snd out1) a in
  argmax (fst out1) = Ok a /\ argmax (fst out2) = Ok eos.

Lemma existsb_map_const {A : Type} (b : bool) (l : list A) :
  existsb (fun m => m) (map (fun _ => b) l) = b && negb (length l =? 0)%nat.
Proof.
  induction l as [|x rest IH]; simpl.
  - rewrite andb_false_r. reflexivity.
  - rewrite IH. destruct b; reflexivity.
Qed.

Lemma decode_loop_S fuel greedy c st :
  decode_loop (S fuel) greedy c st
  = if loop_guard st
    then st' <- decode_step greedy c st ;; decode_loop fuel greedy c st'
    else Ok st.
Proof. reflexivity. Qed.

Lemma loop_guard_rows f_in f_h (b : bool) f_d len g rows :
  loop_guard (rows_state f_in f_h (fun _ => b) f_d len g rows)
  = b && negb (length rows =? 0)%nat && (len <? 100)%Z.
Proof.
  unfold loop_guard, rows_state. cbn [mask length_c].
  rewrite (existsb_map_const b rows). reflexivity.
Qed.

(** C3 (as the code behaves): with a decoder whose greedy choice is [a] at
    step 1 and [</s>] at step 2, the greedy [decode] returns the words of
    [a] and [</s>] for every example: a token is appended while the mask is
    still open, and the mask closes only after the end-of-sequence token has
    been appended. *)
Theorem forced_greedy_decode (g : Gen) (a : nat) (c : Tensor3) :
  size0 c = 1%nat -> a <> eos ->
  (forall c_i, In c_i (view2 c) -> forced a c_i) ->
  decode g c true = Ok (map (fun _ => [id2word a; id2word eos]) (view2 c), g).
Proof.
  intros Hn Hae Hforced. unfold decode. rewrite Hn. simpl negb. cbv iota.
  set (rows := view2 c) in *.
  rewrite decode_init_rows.
  destruct rows as [|r0 rest] eqn:Erows.
  { reflexivity. }
  rewrite <- Erows in *.
  assert (Hlen : (length rows =? 0)%nat = false) by (rewrite Erows; reflexivity).
  apply Nat.eqb_neq in Hae.
  change 99%nat with (S (S 97)).
  (* step 1 *)
  rewrite decode_loop_S, loop_guard_rows, Hlen.
  change (true && negb false && (1 <? 100)%Z) with true. cbv iota.
  rewrite (@decode_step_rows rows _ _ _ _ 1 g (fun _ => a)
             (fun r => snd (lstm_logits r (tanh (trans_linear r), trans_linear r) bos))
             (fun _ => true) (fun _ => [id2word a])).
  2:{ intros r Hr. apply (Hforced r Hr). }
  2:{ reflexivity. }
  2:{ intros r _. rewrite Hae. reflexivity. }
  2:{ reflexivity. }
  cbn [bind].
  (* step 2 *)
  rewrite decode_loop_S, loop_guard_rows, Hlen.
  change (true && negb false && (1 + 1 <? 100)%Z) with true. cbv iota.
  rewrite (@decode_step_rows rows _ _ _ _ (1 + 1) g (fun _ => eos)
             (fun r => snd (lstm_logits r
                              (snd (lstm_logits r (tanh (trans_linear r), trans_linear r) bos))
                              a))
             (fun _ => false) (fun _ => [id2word a; id2word eos])).
  2:{ intros r Hr. apply (Hforced r Hr). }
  2:{ reflexivity. }
  2:{ intros r _. rewrite Nat.eqb_refl. reflexivity. }
  2:{ reflexivity. }
  cbn [bind].
  (* the mask is closed *)
  rewrite decode_loop_S, loop_guard_rows.
  cbn [andb]. cbv iota. reflexivity.
Qed.

(** *** What the loop keeps for every state it goes through *)

(** One row after [len] iterations: while its mask is open it has one word
    per iteration; once the mask is closed its last word is that of
    [</s>] and it no longer grows. *)
Definition row_ok (len : nat) (m : bool) (d : list string) : Prop :=
  (m = true -> length d = len) /\
  (m = false -> (length d <= len)%nat /\ exists pre, d = pre ++ [id2word eos]).

Definition decode_inv (n : nat) (st : decode_state) : Prop :=
  length (decoder_input st) = n /\
  length (decoder_hidden st) = n /\
  length (mask st) = n /\
  (1 <= length_c st <= 100)%Z /\
  Forall2 (row_ok (Z.to_nat (length_c st - 1))) (mask st) (decoded_batch st).

Lemma for_each_length {A B : Type} (f : A -> result B) (l : list A) (ys : list B) :
  for_each f l = Ok ys -> length ys = length l.
Proof.
  revert ys. induction l as [|x rest IH]; intros ys Hf; simpl in Hf.
  - inversion Hf. reflexivity.
  - destruct (f x) as [y|e]; simpl in Hf; [| discriminate].
    destruct (for_each f rest) as [ys0|e]; simpl in Hf; [| discriminate].
    inversion Hf. simpl. rewrite (IH ys0 eq_refl). reflexivity.
Qed.

Lemma sample_rows_length g logits :
  length (fst (sample_rows g logits)) = length logits.
Proof.
  revert g. induction logits as [|row rest IH]; intros g; simpl; [reflexivity |].
  destruct (multinomial g row) as [i g1].
  specialize (IH g1). destruct (sample_rows g1 rest) as [others g2].
  simpl in *. rewrite IH. reflexivity.
Qed.

Lemma select_length greedy g logits sel :
  select greedy g logits = Ok sel -> length (fst sel) = length logits.
Proof.
  unfold select. destruct greedy.
  - destruct (for_each argmax logits) as [idx|e] eqn:Ef; simpl; [| discriminate].
    intros Hs. inversion Hs. simpl. apply (for_each_length _ _ Ef).
  - intros Hs. inversion Hs. apply sample_rows_length.
Qed.

Lemma rows_step (len : nat) :
  forall (msk : list bool) (dec : list (list string)) (sel : list nat),
    Forall2 (row_ok len) msk dec ->
    length sel = length msk ->
    Forall2 (row_ok (S len))
            (map (fun r : nat * bool => negb (fst r =? eos)%nat && snd r)
                 (combine sel msk))
            (map (fun r : list string * bool * nat =>
                    if snd (fst r)
                    then fst (fst r) ++ [id2word (snd r)]
                    else fst (fst r))
                 (combine (combine dec msk) sel)).
Proof.
  intros msk dec sel Hrows. revert sel.
  induction Hrows as [|m d msk dec [Hopen Hclosed] Hrows IH]; intros [|w sel] Hlen;
    simpl in Hlen; try discriminate; simpl.
  - constructor.
  - constructor; [| apply IH; lia].
    destruct m; simpl.
    + destruct (Nat.eqb_spec w eos) as [-> | Hne]; simpl; split; intros Hm;
        try discriminate.
      * split; [rewrite length_app, (Hopen eq_refl); simpl; lia |].
        exists d. reflexivity.
      * rewrite length_app, (Hopen eq_refl). simpl. lia.
    + rewrite andb_false_r. split; intros Hm; [discriminate |].
      destruct (Hclosed eq_refl) as [Hle Hend]. split; [lia | exact Hend].
Qed.

Lemma decode_init_inv g c : decode_inv (length c) (decode_init g c).
Proof.
  unfold decode_inv, decode_init. cbn [decoder_input decoder_hidden mask
                                        decoded_batch length_c].
  unfold Hidden. rewrite length_combine, !length_map, Nat.min_id.
  repeat split; try lia.
  change (Z.to_nat (1 - 1)) with 0%nat.
  induction c as [|r c IH]; simpl; constructor; [| exact IH].
  split; [reflexivity | discriminate].
Qed.

Lemma decode_step_inv greedy c st st' :
  decode_inv (length c) st -> (length_c st < 100)%Z ->
  decode_step greedy c st = Ok st' ->
  decode_inv (length c) st'.
Proof.
  intros (Hin & Hh & Hm & Hlen & Hrows) Hlt. unfold decode_step.
  destruct (select _ _ _) as [sel|e] eqn:Es; simpl; [| discriminate].
  intros Hst. inversion Hst; subst st'. clear Hst.
  apply select_length in Es. unfold Hidden in *.
  rewrite !length_map, !length_combine, Hh, Hin, !Nat.min_id in Es.
  unfold decode_inv.
  cbn [decoder_input decoder_hidden mask decoded_batch length_c].
  rewrite !length_map, !length_combine, Hh, Hin, Hm, Es, !Nat.min_id.
  repeat split; try lia.
  replace (Z.to_nat (length_c st + 1 - 1)) with (S (Z.to_nat (length_c st - 1))) by lia.
  apply rows_step; [exact Hrows | congruence].
Qed.

Lemma decode_loop_inv greedy c fuel :
  forall st st',
    decode_inv (length c) st ->
    decode_loop fuel greedy c st = Ok st' ->
    decode_inv (length c) st' /\
    ((100 - length_c st <= Z.of_nat fuel)%Z -> loop_guard st' = false).
Proof.
  induction fuel as [|fuel IH]; intros st st' Hinv Hl; simpl in Hl.
  - inversion Hl; subst st'. split; [exact Hinv |].
    intros Hfuel. unfold loop_guard.
    destruct (Z.ltb_spec (length_c st) 100); [lia | apply andb_false_r].
  - destruct (loop_guard st) eqn:G.
    + destruct (decode_step greedy c st) as [st1|e] eqn:Es; simpl in Hl; [| discriminate].
      assert (Hlt : (length_c st < 100)%Z).
      { unfold loop_guard in G. apply andb_true_iff in G. apply Z.ltb_lt, G. }
      destruct (IH st1 st' (@decode_step_inv _ _ _ _ Hinv Hlt Es) Hl) as [Hinv' Hexit].
      split; [exact Hinv' |]. intros Hfuel. apply Hexit.
      rewrite (decode_step_length _ _ _ Es). lia.
    + inversion Hl; subst st'. split; [exact Hinv | intros _; exact G].
Qed.

Lemma Forall2_in_r {A B : Type} (R : A -> B -> Prop) (l1 : list A) (l2 : list B) y :
  Forall2 R l1 l2 -> In y l2 -> exists x, In x l1 /\ R x y.
Proof.
  induction 1 as [|x y0 l1 l2 Hxy Hrest IH]; intros Hy; [contradiction |].
  destruct Hy as [<- | Hy].
  - exists x. split; [left; reflexivity | exact Hxy].
  - destruct (IH Hy) as (x' & Hin & Hr). exists x'. split; [right; exact Hin | exact Hr].
Qed.

(** X8: [decode], greedy or sampling, returns one sequence per row of the
    batch; no sequence has more than 99 words, and a sequence of fewer than
    99 words ends with the word of [</s>]. *)
Theorem decode_sequences_bounded (g g' : Gen) (c : Tensor3) (greedy : bool)
        (out : list (list string)) :
  decode g c greedy = Ok (out, g') ->
  length out = length (view2 c) /\
  forall ws, In ws out ->
             (length ws <= 99)%nat /\
             ((length ws < 99)%nat -> exists pre, ws = pre ++ [id2word eos]).
Proof.
  unfold decode. destruct (negb (size0 c =? 1)%nat); [discriminate |].
  destruct (decode_loop 99 greedy (view2 c) (decode_init g (view2 c))) as [st|e] eqn:Hl;
    simpl; [| discriminate].
  intros Hout. inversion Hout; subst out g'. clear Hout.
  destruct (@decode_loop_inv _ _ _ _ _ (decode_init_inv g (view2 c)) Hl)
    as [(_ & _ & Hm & Hlen & Hrows) Hexit].
  assert (G : loop_guard st = false).
  { apply Hexit. unfold decode_init. cbn [length_c]. lia. }
  split.
  - rewrite <- (Forall2_length Hrows). exact Hm.
  - intros ws Hws. destruct (@Forall2_in_r _ _ _ _ _ _ Hrows Hws) as (m & Hmin & Hopen & Hclosed).
    destruct m.
    + assert (Hcap : length_c st = 100%Z).
      { unfold loop_guard in G. apply andb_false_iff in G. destruct G as [G | G].
        - exfalso. assert (Hex : existsb (fun b => b) (mask st) = true)
            by (apply existsb_exists; exists true; split; [exact Hmin | reflexivity]).
          congruence.
        - apply Z.ltb_ge in G. lia. }
      rewrite (Hopen eq_refl), Hcap. change (Z.to_nat (100 - 1)) with 99%nat.
      split; lia.
    + destruct (Hclosed eq_refl) as [Hle Hend]. split; [lia | intros _; exact Hend].
Qed.

Lemma decode_step_greedy_gen c st st' :
  decode_step true c st = Ok st' -> gen st' = gen st.
Proof.
  unfold decode_step, select.
  destruct (for_each argmax _) as [idx|e]; simpl; [| discriminate].
  intros Hst. inversion Hst. reflexivity.
Qed.

Lemma decode_loop_greedy_gen c fuel :
  forall st st', decode_loop fuel true c st = Ok st' -> gen st' = gen st.
Proof.
  induction fuel as [|fuel IH]; intros st st' Hl; simpl in Hl.
  - inversion Hl. reflexivity.
  - destruct (loop_guard st).
    + destruct (decode_step true c st) as [st1|e] eqn:Es; simpl in Hl; [| discriminate].
      rewrite (IH st1 st' Hl). apply (@decode_step_greedy_gen _ _ _ Es).
    + inversion Hl. reflexivity.
Qed.

(** X9: greedy decoding does not touch the random generator: it hands back the
    generator it was given. *)
Theorem greedy_decode_keeps_generator (g g' : Gen) (c : Tensor3)
        (out : list (list string)) :
  decode g c true = Ok (out, g') -> g' = g.
Proof.
  unfold decode. destruct (negb (size0 c =? 1)%nat); [discriminate |].
  destruct (decode_loop 99 true (view2 c) (decode_init g (view2 c))) as [st|e] eqn:Hl;
    simpl; [| discriminate].
  intros Hout. inversion Hout; subst out g'. clear Hout.
  apply decode_loop_greedy_gen in Hl. exact Hl.
Qed.

End ContentDecoder.
End Greedy.

(** ** [LSTMDecoder.forward] and [ContentDecoder.forward]: the shape checks *)

Module Forward.

Section Decoders.
Variable Logits : Type.

(** What follows the checks in [LSTMDecoder.forward]: embedding, dropout,
    the LSTM started from [trans_linear] of the joined codes, and the
    projection to the vocabulary. *)
Variable lstm_network : list (list nat) -> list (list Q) -> list (list Q) -> Logits.

(** The same for [ContentDecoder.forward], with the content code alone. *)
Variable content_network : list (list nat) -> list (list Q) -> Logits.

Definition lstm_forward (inputs : list (list nat)) (c s : Tensor3) : result Logits :=
  if negb (size0 c =? size0 s)%nat then Raise AssertionError
  else if negb (size1 c =? size1 s)%nat then Raise AssertionError
  else if (size0 c =? 1)%nat
       then Ok (lstm_network inputs (view2 c) (view2 s))
       else Raise NotImplementedError.

Definition content_forward (inputs : list (list nat)) (c : Tensor3) : result Logits :=
  if (size0 c =? 1)%nat
  then Ok (content_network inputs (view2 c))
  else Raise NotImplementedError.

(** C9: content and style samples that disagree in sample count or in batch
    size make [LSTMDecoder.forward] raise [AssertionError]; with agreeing
    shapes, a sample count other than 1 makes it raise
    [NotImplementedError]; and [ContentDecoder.decode] raises
    [AssertionError] on a sample count other than 1.  No result is
    returned in any of these cases. *)
Theorem shape_violations_raise
        (Vec Gen : Type) (bos eos : nat) (id2word : nat -> string)
        (trans_linear : list Q -> Vec) (tanh : Vec -> Vec)
        (lstm_logits : list Q -> Greedy.Hidden Vec -> nat -> list Q * Greedy.Hidden Vec)
        (multinomial : Gen -> list Q -> nat * Gen)
        (inputs : list (list nat)) (c s : Tensor3) (g : Gen) (greedy : bool) :
  (size0 c <> size0 s \/ size1 c <> size1 s ->
   lstm_forward inputs c s = Raise AssertionError) /\
  (size0 c = size0 s -> size1 c = size1 s -> size0 c <> 1%nat ->
   lstm_forward inputs c s = Raise NotImplementedError) /\
  (size0 c <> 1%nat ->
   Greedy.decode bos eos id2word trans_linear tanh lstm_logits multinomial g c greedy
   = Raise AssertionError).
Proof.
  unfold lstm_forward, Greedy.decode. repeat split.
  - intros [Hn | Hb].
    + apply Nat.eqb_neq in Hn. rewrite Hn. reflexivity.
    + apply Nat.eqb_neq in Hb. rewrite Hb.
      destruct (size0 c =? size0 s)%nat; reflexivity.
  - intros Hn Hb H1. rewrite <- Hn, <- Hb, !Nat.eqb_refl.
    apply Nat.eqb_neq in H1. rewrite H1. reflexivity.
  - intros H1. apply Nat.eqb_neq in H1. rewrite H1. reflexivity.
Qed.

End Decoders.
End Forward.

(** ** Real-valued tensors

    Rank-2 tensors are lists of rows, rank-3 tensors lists of those.
    Elementwise operations pair up the entries; where PyTorch broadcasts a
    dimension of size 1, [bzip] does. *)

Module Tensor.
Local Open Scope R_scope.

Definition zip_with {A B C : Type} (f : A -> B -> C) (xs : list A) (ys : list B)
  : list C :=
  map (fun p => f (fst p) (snd p)) (combine xs ys).

(** Elementwise operation with broadcasting along this dimension. *)
Definition bzip {A B C : Type} (f : A -> B -> C) (xs : list A) (ys : list B)
  : list C :=
  match xs, ys with
  | [x], _ => map (f x) ys
  | _, [y] => map (fun x => f x y) xs
  | _, _ => zip_with f xs ys
  end.

Definition sum_list (l : list R) : R := fold_right Rplus 0 l.

(** [.mean()] of a rank-1 tensor. *)
Definition mean (l : list R) : R := sum_list l / INR (length l).

(** [.sum(-1)] of a rank-2 tensor. *)
Definition sum_last (a : list (list R)) : list R := map sum_list a.

(** [.sum()] of a rank-2 tensor. *)
Definition sum_all (a : list (list R)) : R := sum_list (map sum_list a).

Definition map2d (f : R -> R) (a : list (list R)) : list (list R) := map (map f) a.

Definition map3d (f : R -> R) (a : list (list (list R))) : list (list (list R)) :=
  map (map (map f)) a.

(** [a.size()] of a rank-2 tensor with at least one row. *)
Definition shape2 (a : list (list R)) : nat * nat := (length a, length (hd [] a)).

(** All rows have [n] entries. *)
Definition rows_of_width (n : nat) (a : list (list R)) : Prop :=
  forall row, In row a -> length row = n.

Lemma zip_with_nil_r {A B C : Type} (f : A -> B -> C) (xs : list A) :
  zip_with f xs [] = [].
Proof. unfold zip_with. rewrite combine_nil. reflexivity. Qed.

Lemma zip_with_cons {A B C : Type} (f : A -> B -> C) x xs y ys :
  zip_with f (x :: xs) (y :: ys) = f x y :: zip_with f xs ys.
Proof. reflexivity. Qed.

Lemma zip_with_map_map {A B C D : Type} (f : B -> C -> D) (k1 : A -> B) (k2 : A -> C)
      (l : list A) :
  zip_with f (map k1 l) (map k2 l) = map (fun x => f (k1 x) (k2 x)) l.
Proof.
  induction l as [|x rest IH]; [reflexivity |].
  simpl. rewrite zip_with_cons, IH. reflexivity.
Qed.

Lemma zip_with_maps {A A' B C D : Type} (f : B -> C -> D) (k1 : A -> B) (k2 : A' -> C)
      (l1 : list A) (l2 : list A') :
  zip_with f (map k1 l1) (map k2 l2)
  = map (fun p => f (k1 (fst p)) (k2 (snd p))) (combine l1 l2).
Proof.
  revert l2. induction l1 as [|x rest IH]; intros [|y l2]; try reflexivity.
  simpl. rewrite zip_with_cons, IH. reflexivity.
Qed.

Lemma length_zip_with {A B C : Type} (f : A -> B -> C) xs ys :
  length xs = length ys -> length (zip_with f xs ys) = length xs.
Proof.
  intros H. unfold zip_with. rewrite length_map, length_combine, <- H.
  apply Nat.min_id.
Qed.

Lemma nth_error_zip_with {A B C : Type} (f : A -> B -> C) xs ys i x y :
  nth_error xs i = Some x -> nth_error ys i = Some y ->
  nth_error (zip_with f xs ys) i = Some (f x y).
Proof.
  revert ys i. induction xs as [|x0 xs IH]; intros [|y0 ys] [|i] Hx Hy;
    try discriminate.
  - simpl in *. inversion Hx; inversion Hy; subst. reflexivity.
  - rewrite zip_with_cons. simpl in *. apply IH; assumption.
Qed.

Lemma bzip_single_l {A B C : Type} (f : A -> B -> C) x ys :
  bzip f [x] ys = map (f x) ys.
Proof. reflexivity. Qed.

Lemma bzip_single_r {A B C : Type} (f : A -> B -> C) xs y :
  bzip f xs [y] = map (fun x => f x y) xs.
Proof. destruct xs as [|x [|x' xs]]; reflexivity. Qed.

Lemma bzip_same_length {A B C : Type} (f : A -> B -> C) xs ys :
  length xs = length ys -> bzip f xs ys = zip_with f xs ys.
Proof.
  intros H. destruct xs as [|x [|x' xs]]; destruct ys as [|y [|y' ys]];
    try discriminate; reflexivity.
Qed.

Lemma sum_list_app l1 l2 : sum_list (l1 ++ l2) = sum_list l1 + sum_list l2.
Proof.
  induction l1 as [|x rest IH]; simpl; [lra | rewrite IH; lra].
Qed.

Lemma sum_list_zero (l : list R) :
  (forall x, In x l -> x = 0) -> sum_list l = 0.
Proof.
  induction l as [|x rest IH]; intros H; simpl; [reflexivity |].
  rewrite (H x (or_introl eq_refl)), IH; [lra |].
  intros y Hy. apply H. right. exact Hy.
Qed.

(** A list read back through its indices. *)
Lemma map_nth_seq {A B : Type} (f : A -> B) (d : A) (l : list A) :
  map (fun i => f (nth i l d)) (seq 0 (length l)) = map f l.
Proof.
  induction l as [|x rest IH]; [reflexivity |].
  simpl. f_equal. rewrite <- seq_shift, map_map. exact IH.
Qed.

End Tensor.

(** ** [GaussianEncoderBase] *)

Module Encoder.
Import Tensor.
Local Open Scope R_scope.
#[local] Set Default Proof Using "Type".

Section GaussianEncoderBase.
Variable Input : Type.
Variable Gen : Type.                          (* state of the random generator *)

(** [self.forward] as [sample] and [encode] use it: the means and
    log-variances of the content and of the style factor, each of shape
    [batch x nz]. *)
Variable forward :
  Input -> list (list R) * list (list R) * list (list R) * list (list R).

(** [torch.zeros_like(x).normal_()] for a tensor of the given shape. *)
Variable normal : Gen -> nat -> nat -> nat -> list (list (list R)) * Gen.

Definition reparameterize (g : Gen) (mu logvar : list (list R)) (nsamples : nat)
  : list (list (list R)) * Gen :=
  let (batch_size, nz) := shape2 mu in
  let std := map2d (fun x => exp (x * 0.5)) logvar in
  let mu_expd := repeat mu nsamples in
  let std_expd := repeat std nsamples in
  let (eps, g') := normal g nsamples batch_size nz in
  (zip_with (zip_with (zip_with Rplus)) mu_expd
            (zip_with (zip_with (zip_with Rmult)) eps std_expd),
   g').

(** The summand [0.5 * (mu.pow(2) + logvar.exp() - logvar - 1).sum(1)]. *)
Definition kl_term (mu logvar : list (list R)) : list R :=
  map (Rmult 0.5)
      (sum_last
         (map2d (fun x => x - 1)
                (zip_with (zip_with Rminus)
                          (zip_with (zip_with Rplus) (map2d (fun x => x ^ 2) mu)
                                    (map2d exp logvar))
                          logvar))).

Definition encode (g : Gen) (inputs : Input) (nsamples : nat)
  : (list (list (list R)) * list (list (list R)) * list R) * Gen :=
  let '(mu_c, logvar_c, mu_s, logvar_s) := forward inputs in
  let (c, g1) := reparameterize g mu_c logvar_c nsamples in
  let (s, g2) := reparameterize g1 mu_s logvar_s nsamples in
  let KL := zip_with Rplus (kl_term mu_c logvar_c) (kl_term mu_s logvar_s) in
  ((c, s, KL), g2).

(** The KL divergence of one example as the specification words it:
    half the sum over the dimensions of
    [mean^2 + exp(logvar) - logvar - 1]. *)
Definition kl_divergence (mean_v logvar_v : list R) : R :=
  0.5 * sum_list (zip_with (fun m l => m ^ 2 + exp l - l - 1) mean_v logvar_v).

Definition all_zero (v : list R) : Prop := forall x, In x v -> x = 0.

Lemma kl_row (m l : list R) :
  0.5 * sum_list (map (fun x => x - 1)
                      (zip_with Rminus
                                (zip_with Rplus (map (fun x => x ^ 2) m) (map exp l))
                                l))
  = kl_divergence m l.
Proof.
  unfold kl_divergence, sum_list. f_equal. revert l.
  induction m as [|x m IH]; intros [|y l]; try reflexivity.
  simpl map. rewrite !zip_with_cons. simpl map. simpl fold_right.
  f_equal. apply IH.
Qed.

Lemma nth_error_kl_term mu logvar i m l :
  nth_error mu i = Some m -> nth_error logvar i = Some l ->
  nth_error (kl_term mu logvar) i = Some (kl_divergence m l).
Proof.
  intros Hm Hl. unfold kl_term, sum_last, map2d.
  rewrite !nth_error_map.
  erewrite nth_error_zip_with;
    [| erewrite nth_error_zip_with;
       [reflexivity | rewrite nth_error_map, Hm; reflexivity
                    | rewrite nth_error_map, Hl; reflexivity]
     | exact Hl].
  simpl. f_equal. apply kl_row.
Qed.

Lemma kl_divergence_zero (m l : list R) :
  all_zero m -> all_zero l -> kl_divergence m l = 0.
Proof.
  intros Hm Hl. unfold kl_divergence.
  rewrite sum_list_zero; [lra |].
  intros x Hx. unfold zip_with in Hx. apply in_map_iff in Hx.
  destruct Hx as ([a b] & <- & Hin). simpl.
  rewrite (Hm a (in_combine_l _ _ _ _ Hin)), (Hl b (in_combine_r _ _ _ _ Hin)).
  rewrite exp_0. lra.
Qed.

(** C5: the third component of [encode] holds, for every example, the KL
    term of the content factor plus the KL term of the style factor, each
    half the sum over the dimensions of [mean^2 + exp(logvar) - logvar - 1];
    an example whose four parameter vectors are zero has KL exactly 0. *)
Theorem encode_kl (g : Gen) (inputs : Input) (nsamples i : nat)
        (mu_c logvar_c mu_s logvar_s : list (list R)) (mc lc ms ls : list R) :
  forward inputs = (mu_c, logvar_c, mu_s, logvar_s) ->
  nth_error mu_c i = Some mc -> nth_error logvar_c i = Some lc ->
  nth_error mu_s i = Some ms -> nth_error logvar_s i = Some ls ->
  length mc = length lc -> length ms = length ls ->
  nth_error (snd (fst (encode g inputs nsamples))) i
  = Some (kl_divergence mc lc + kl_divergence ms ls) /\
  (all_zero mc -> all_zero lc -> all_zero ms -> all_zero ls ->
   nth_error (snd (fst (encode g inputs nsamples))) i = Some 0).
Proof.
  intros Hf Hmc Hlc Hms Hls _ _.
  assert (HKL : nth_error (snd (fst (encode g inputs nsamples))) i
                = Some (kl_divergence mc lc + kl_divergence ms ls)).
  { unfold encode. rewrite Hf.
    destruct (reparameterize g mu_c logvar_c nsamples) as [c g1].
    destruct (reparameterize g1 mu_s logvar_s nsamples) as [s g2].
    simpl. apply nth_error_zip_with; apply nth_error_kl_term; assumption. }
  split; [exact HKL |].
  intros Zmc Zlc Zms Zls. rewrite HKL.
  rewrite (kl_divergence_zero Zmc Zlc), (kl_divergence_zero Zms Zls).
  f_equal. lra.
Qed.

(** *** The sign of the KL term *)

Lemma kl_term_rows (mu logvar : list (list R)) :
  kl_term mu logvar = zip_with kl_divergence mu logvar.
Proof.
  unfold kl_term, sum_last, map2d. revert logvar.
  induction mu as [|m mu IH]; intros [|l logvar]; try reflexivity.
  simpl map. rewrite !zip_with_cons. simpl map.
  f_equal; [apply kl_row | apply IH].
Qed.

Lemma sum_list_nonneg (l : list R) :
  (forall x, In x l -> 0 <= x) -> 0 <= sum_list l.
Proof.
  induction l as [|x rest IH]; intros H; simpl; [lra |].
  pose proof (H x (or_introl eq_refl)).
  assert (0 <= sum_list rest) by (apply IH; intros y Hy; apply H; right; exact Hy).
  unfold sum_list in *. lra.
Qed.

Lemma kl_summand_nonneg (m l : R) : 0 <= m ^ 2 + exp l - l - 1.
Proof.
  pose proof (pow2_ge_0 m). pose proof (exp_ineq1_le l). lra.
Qed.

Lemma kl_divergence_nonneg (m l : list R) : 0 <= kl_divergence m l.
Proof.
  unfold kl_divergence.
  assert (0 <= sum_list (zip_with (fun m0 l0 => m0 ^ 2 + exp l0 - l0 - 1) m l)).
  { apply sum_list_nonneg. intros x Hx. unfold zip_with in Hx.
    apply in_map_iff in Hx. destruct Hx as ([a b] & <- & _). apply kl_summand_nonneg. }
  lra.
Qed.

Lemma kl_divergence_zero_inv (m l : list R) :
  length m = length l -> kl_divergence m l = 0 -> all_zero m /\ all_zero l.
Proof.
  unfold kl_divergence. revert l.
  induction m as [|a m IH]; intros [|b l] Hlen Hk; simpl in Hlen; try discriminate.
  - split; intros x [].
  - rewrite zip_with_cons in Hk. unfold sum_list in Hk. cbn [fold_right] in Hk.
    fold (sum_list (zip_with (fun m0 l0 => m0 ^ 2 + exp l0 - l0 - 1) m l)) in Hk.
    pose proof (kl_divergence_nonneg m l) as Hrest. unfold kl_divergence in Hrest.
    pose proof (pow2_ge_0 a) as Ha. pose proof (exp_ineq1_le b) as Hb.
    assert (Ha0 : a = 0).
    { destruct (Req_dec a 0) as [E | NE]; [exact E | exfalso].
      assert (0 < a ^ 2).
      { destruct (Rtotal_order a 0) as [Hn | [Hz | Hp]]; [| contradiction |].
        - replace (a ^ 2) with ((- a) ^ 2) by ring. apply pow_lt. lra.
        - apply pow_lt. exact Hp. }
      lra. }
    assert (Hb0 : b = 0).
    { destruct (Req_dec b 0) as [E | NE]; [exact E | exfalso].
      pose proof (exp_ineq1 b NE). lra. }
    assert (Hk' : 0.5 * sum_list (zip_with (fun m0 l0 => m0 ^ 2 + exp l0 - l0 - 1) m l) = 0).
    { subst a b. rewrite exp_0 in Hk. lra. }
    destruct (IH l (eq_add_S _ _ Hlen) Hk') as [Hm Hl].
    split; intros x [<- | Hx]; auto.
Qed.

(** X10: the KL value of every example is at least 0, whatever the encoder
    returns. *)
Theorem kl_nonnegative (g : Gen) (inputs : Input) (nsamples : nat) (k : R) :
  In k (snd (fst (encode g inputs nsamples))) -> 0 <= k.
Proof.
  unfold encode.
  destruct (forward inputs) as [[[mu_c logvar_c] mu_s] logvar_s].
  destruct (reparameterize g mu_c logvar_c nsamples) as [c g1].
  destruct (reparameterize g1 mu_s logvar_s nsamples) as [s g2].
  cbn [fst snd]. rewrite !kl_term_rows. intros Hk.
  unfold zip_with at 1 in Hk. apply in_map_iff in Hk.
  destruct Hk as ([a b] & <- & Hin). cbn [fst snd].
  assert (Hpos : forall mu lv x, In x (zip_with kl_divergence mu lv) -> 0 <= x).
  { intros mu lv x Hx. unfold zip_with in Hx. apply in_map_iff in Hx.
    destruct Hx as ([m l] & <- & _). apply kl_divergence_nonneg. }
  pose proof (Hpos _ _ _ (in_combine_l _ _ _ _ Hin)).
  pose proof (Hpos _ _ _ (in_combine_r _ _ _ _ Hin)). lra.
Qed.

(** X11: the KL value of an example is 0 only when its content and style
    parameters, mean and log-variance, are 0 in every dimension. *)
Theorem kl_zero_only_at_prior (g : Gen) (inputs : Input) (nsamples i : nat)
        (mu_c logvar_c mu_s logvar_s : list (list R)) (mc lc ms ls : list R) :
  forward inputs = (mu_c, logvar_c, mu_s, logvar_s) ->
  nth_error mu_c i = Some mc -> nth_error logvar_c i = Some lc ->
  nth_error mu_s i = Some ms -> nth_error logvar_s i = Some ls ->
  length mc = length lc -> length ms = length ls ->
  nth_error (snd (fst (encode g inputs nsamples))) i = Some 0 ->
  all_zero mc /\ all_zero lc /\ all_zero ms /\ all_zero ls.
Proof.
  intros Hf Hmc Hlc Hms Hls Hc Hs. unfold encode. rewrite Hf.
  destruct (reparameterize g mu_c logvar_c nsamples) as [c g1].
  destruct (reparameterize g1 mu_s logvar_s nsamples) as [s g2].
  cbn [fst snd].
  rewrite (nth_error_zip_with Rplus _ _ _
             (nth_error_kl_term _ _ _ Hmc Hlc) (nth_error_kl_term _ _ _ Hms Hls)).
  intros Hk. inversion Hk as [Hsum].
  pose proof (kl_divergence_nonneg mc lc). pose proof (kl_divergence_nonneg ms ls).
  destruct (@kl_divergence_zero_inv mc lc Hc) as [? ?]; [lra |].
  destruct (@kl_divergence_zero_inv ms ls Hs) as [? ?]; [lra |].
  repeat split; assumption.
Qed.

(** *** [sample] and the entries of [reparameterize] *)

Definition sample (g : Gen) (inputs : Input) (nsamples : nat)
  : (list (list (list R)) * list (list (list R))
     * (list (list R) * list (list R)) * (list (list R) * list (list R))) * Gen :=
  let '(mu_c, logvar_c, mu_s, logvar_s) := forward inputs in
  let (c, g1) := reparameterize g mu_c logvar_c nsamples in
  let (s, g2) := reparameterize g1 mu_s logvar_s nsamples in
  ((c, s, (mu_c, logvar_c), (mu_s, logvar_s)), g2).

(** X12: from the same generator and input, [encode] returns the samples that
    [sample] returns and leaves the generator as [sample] leaves it; its
    third component is, example by example, the KL term of the content
    parameters plus that of the style parameters that [sample] reports. *)
Theorem encode_agrees_with_sample (g g' : Gen) (inputs : Input) (nsamples : nat)
        (c s : list (list (list R))) (mu_c logvar_c mu_s logvar_s : list (list R)) :
  sample g inputs nsamples = ((c, s, (mu_c, logvar_c), (mu_s, logvar_s)), g') ->
  encode g inputs nsamples
  = ((c, s, zip_with Rplus (zip_with kl_divergence mu_c logvar_c)
                           (zip_with kl_divergence mu_s logvar_s)),
     g').
Proof.
  unfold sample, encode.
  destruct (forward inputs) as [[[m1 l1] m2] l2].
  destruct (reparameterize g m1 l1 nsamples) as [c0 g1].
  destruct (reparameterize g1 m2 l2 nsamples) as [s0 g2].
  intros Hs. inversion Hs; subst. rewrite !kl_term_rows. reflexivity.
Qed.

(** X13: entry [d] of row [i] of sample [k] is the mean plus the noise times
    [exp (0.5 * logvar)]: the mean and the deviation of row [i] serve every
    sample. *)
Theorem reparameterize_entry (g g' : Gen) (mu logvar : list (list R))
        (eps : list (list (list R))) (nsamples k i d : nat)
        (mu_i logvar_i : list R) (eps_k : list (list R)) (eps_ki : list R)
        (m l e : R) :
  normal g nsamples (length mu) (length (hd [] mu)) = (eps, g') ->
  (k < nsamples)%nat ->
  nth_error mu i = Some mu_i -> nth_error mu_i d = Some m ->
  nth_error logvar i = Some logvar_i -> nth_error logvar_i d = Some l ->
  nth_error eps k = Some eps_k -> nth_error eps_k i = Some eps_ki ->
  nth_error eps_ki d = Some e ->
  exists sample_k row,
    nth_error (fst (reparameterize g mu logvar nsamples)) k = Some sample_k /\
    nth_error sample_k i = Some row /\
    nth_error row d = Some (m + e * exp (l * 0.5)) /\
    snd (reparameterize g mu logvar nsamples) = g'.
Proof.
  intros Hn Hk Hmu Hm Hlv Hl He2 He1 He0.
  unfold reparameterize, shape2. rewrite Hn. cbn [fst snd].
  assert (Hrep : forall (A : Type) (x : A), nth_error (repeat x nsamples) k = Some x).
  { intros A x. clear -Hk. revert k Hk.
    induction nsamples as [|n IH]; intros k Hk; [lia |].
    destruct k; simpl; [reflexivity | apply IH; lia]. }
  eexists. eexists. split; [| split; [| split; [| reflexivity]]].
  - apply nth_error_zip_with; [apply Hrep |].
    apply nth_error_zip_with; [exact He2 | apply Hrep].
  - apply nth_error_zip_with; [exact Hmu |].
    apply nth_error_zip_with; [exact He1 |].
    unfold map2d. rewrite nth_error_map, Hlv. reflexivity.
  - apply nth_error_zip_with; [exact Hm |].
    apply nth_error_zip_with; [exact He0 |].
    rewrite nth_error_map, Hl. reflexivity.
Qed.

End GaussianEncoderBase.
(** *** [calc_mi] *)

Section MutualInformation.
Variable Input : Type.
Variable Gen : Type.

(** [self.forward] as a Python method: it raises, or it returns a tuple of
    rank-2 tensors.  The base class raises [NotImplementedError];
    [LSTMEncoder.forward] returns the four tensors that [sample] and
    [encode] unpack. *)
Variable forward : Input -> result (list (list (list R))).
Variable normal : Gen -> nat -> nat -> nat -> list (list (list R)) * Gen.

(** [a, b = t]: a tuple of any other length than two raises [ValueError]. *)
Definition unpack2 {A : Type} (t : list A) : result (A * A) :=
  match t with
  | [a; b] => Ok (a, b)
  | _ => Raise ValueError
  end.

(** Modelled from the spec: [log_sum_exp] of [models.utils], which is not
    among the sources.  The numerically stable log-sum-exp: the maximum is
    factored out before the exponentials are summed. *)
Definition log_sum_exp_vec (v : list R) : R :=
  let m := fold_right Rmax (hd 0 v) v in
  m + ln (sum_list (map (fun x => exp (x - m)) v)).

Definition column (i : nat) (a : list (list R)) : list R :=
  map (fun row => nth i row 0) a.

(** [log_sum_exp(a, dim=0)] on a rank-2 tensor: one value per column. *)
Definition log_sum_exp_dim0 (a : list (list R)) : list R :=
  map (fun i => log_sum_exp_vec (column i a)) (seq 0 (length (hd [] a))).

(** [a.unsqueeze(1)] *)
Definition unsqueeze1 (a : list (list R)) : list (list (list R)) :=
  map (fun row => [row]) a.

Definition calc_mi (g : Gen) (x : Input) : result (R * Gen) :=
  t <- forward x ;;
  p <- unpack2 t ;;
  let (mu, logvar) := p in
  let (x_batch, nz) := shape2 mu in
  let neg_entropy :=
    mean (map (fun s => -0.5 * INR nz * ln (2 * PI) - 0.5 * s)
              (sum_last (map2d (Rplus 1) logvar))) in
  let (z_samples, g') := reparameterize normal g mu logvar 1 in
  let mu := unsqueeze1 mu in
  let logvar := unsqueeze1 logvar in
  let var := map3d exp logvar in
  let dev := bzip (bzip (bzip Rminus)) z_samples mu in
  let log_density :=
    bzip (bzip Rminus)
         (map2d (Rmult (-0.5))
                (map sum_last
                     (bzip (bzip (bzip Rdiv)) (map3d (fun d => d ^ 2) dev) var)))
         (map2d (fun s => 0.5 * (INR nz * ln (2 * PI) + s)) (map sum_last logvar)) in
  let log_qz :=
    map (fun v => v - ln (INR x_batch)) (log_sum_exp_dim0 log_density) in
  Ok (neg_entropy - mean log_qz, g').

(** The estimate as the specification words it. *)

Definition zip_with3 {A B C D : Type} (f : A -> B -> C -> D)
           (xs : list A) (ys : list B) (zs : list C) : list D :=
  map (fun t => f (fst (fst t)) (snd (fst t)) (snd t)) (combine (combine xs ys) zs).

(** Log-density of the sample [z] under the diagonal Gaussian with mean [m]
    and log-variance [l]. *)
Definition gaussian_log_density (z m l : list R) : R :=
  -0.5 * sum_list (zip_with3 (fun zd md ld => (zd - md) ^ 2 / exp ld) z m l)
  - 0.5 * (INR (length m) * ln (2 * PI) + sum_list l).

(** Closed-form negative entropy, averaged over the batch. *)
Definition negative_entropy (nz : nat) (logvar : list (list R)) : R :=
  mean (map (fun l => -0.5 * INR nz * ln (2 * PI)
                      - 0.5 * sum_list (map (fun v => 1 + v) l))
            logvar).

(** For one sample: log-sum-exp over the distributions of the batch, minus
    the log of the batch size. *)
Definition log_qz_of (mu logvar : list (list R)) (z : list R) : R :=
  log_sum_exp_vec (map (fun p => gaussian_log_density z (fst p) (snd p))
                       (combine mu logvar))
  - ln (INR (length mu)).

Definition mi_estimate (nz : nat) (mu logvar zs : list (list R)) : R :=
  negative_entropy nz logvar - mean (map (log_qz_of mu logvar) zs).

Lemma map_fst_combine {A B : Type} (l1 : list A) (l2 : list B) :
  length l1 = length l2 -> map fst (combine l1 l2) = l1.
Proof.
  revert l2. induction l1 as [|x l1 IH]; intros [|y l2] H; try discriminate.
  - reflexivity.
  - simpl. f_equal. apply IH. simpl in H. lia.
Qed.

Lemma map_snd_combine {A B : Type} (l1 : list A) (l2 : list B) :
  length l1 = length l2 -> map snd (combine l1 l2) = l2.
Proof.
  revert l2. induction l1 as [|x l1 IH]; intros [|y l2] H; try discriminate.
  - reflexivity.
  - simpl. f_equal. apply IH. simpl in H. lia.
Qed.

Lemma density_row (z m l : list R) :
  zip_with Rdiv (map (fun d => d ^ 2) (zip_with Rminus z m)) (map exp l)
  = zip_with3 (fun zd md ld => (zd - md) ^ 2 / exp ld) z m l.
Proof.
  unfold zip_with3, zip_with. revert m l.
  induction z as [|zd z IH]; intros [|md m] [|ld l]; try reflexivity.
  simpl. f_equal. apply IH.
Qed.

(** Reading the columns of a table built row by row. *)
Lemma columns_of_table {A B : Type} (f : A -> B -> R) (ps : list A) (zs : list B)
      (k : list R -> R) (d : B) :
  ps <> [] ->
  map (fun i => k (column i (map (fun p => map (fun z => f p z) zs) ps)))
      (seq 0 (length (hd [] (map (fun p => map (fun z => f p z) zs) ps))))
  = map (fun z => k (map (fun p => f p z) ps)) zs.
Proof.
  intros Hps.
  assert (Hw : length (hd [] (map (fun p => map (fun z => f p z) zs) ps)) = length zs).
  { destruct ps as [|p0 ps]; [congruence |]. simpl. apply length_map. }
  rewrite Hw.
  rewrite <- (map_nth_seq (fun z => k (map (fun p => f p z) ps)) d zs).
  apply map_ext_in. intros i Hi. apply in_seq in Hi.
  f_equal. unfold column. rewrite map_map.
  apply map_ext. intros p.
  rewrite (nth_indep _ 0 (f p d)) by (rewrite length_map; lia).
  apply (map_nth (fun z => f p z)).
Qed.

(** The table of log-densities that [calc_mi] builds by broadcasting: row
    [j] holds the log-density of every sample under distribution [j]. *)
Lemma log_density_table (nz : nat) (ps : list (list R * list R)) (zs : list (list R)) :
  rows_of_width nz (map fst ps) -> rows_of_width nz (map snd ps) ->
  rows_of_width nz zs ->
  bzip (bzip Rminus)
       (map2d (Rmult (-0.5))
              (map sum_last
                   (bzip (bzip (bzip Rdiv))
                         (map3d (fun d => d ^ 2)
                                (bzip (bzip (bzip Rminus)) [zs] (unsqueeze1 (map fst ps))))
                         (map3d exp (unsqueeze1 (map snd ps))))))
       (map2d (fun s => 0.5 * (INR nz * ln (2 * PI) + s))
              (map sum_last (unsqueeze1 (map snd ps))))
  = map (fun p => map (fun z => gaussian_log_density z (fst p) (snd p)) zs) ps.
Proof.
  intros Hmu Hlv Hzs.
  unfold unsqueeze1, map3d, map2d, sum_last.
  rewrite bzip_single_l, !map_map.
  rewrite (bzip_same_length (bzip (bzip Rdiv))) by (rewrite !length_map; reflexivity).
  rewrite zip_with_map_map, !map_map.
  rewrite (bzip_same_length (bzip Rminus)) by (rewrite !length_map; reflexivity).
  rewrite zip_with_map_map.
  apply map_ext_in. intros [m l] Hp. cbn [fst snd].
  assert (Hm : length m = nz) by (apply Hmu, (in_map fst _ _ Hp)).
  assert (Hl : length l = nz) by (apply Hlv, (in_map snd _ _ Hp)).
  cbn [map].
  rewrite !bzip_single_r, !map_map.
  apply map_ext_in. intros z Hz.
  assert (Hzl : length z = nz) by (apply Hzs, Hz).
  rewrite (bzip_same_length Rminus z m) by congruence.
  rewrite bzip_same_length
    by (rewrite !length_map, length_zip_with by congruence; congruence).
  rewrite density_row. unfold gaussian_log_density. rewrite Hm. cbn [sum_list fold_right].
  lra.
Qed.

(** What the body of [calc_mi] computes once the unpacking has succeeded,
    that is for a [forward] that returns exactly one mean and one
    log-variance tensor: the batch mean of the closed-form negative entropy
    minus the batch mean of [log_qz], where [log_qz] of a sample is the
    log-sum-exp, over the distributions of the batch, of the Gaussian
    log-density of that sample, minus the log of the batch size. *)
Lemma calc_mi_of_pair (g g' : Gen) (x : Input) (nz : nat)
      (mu logvar zs : list (list R)) :
  forward x = Ok [mu; logvar] ->
  reparameterize normal g mu logvar 1 = ([zs], g') ->
  mu <> [] -> length logvar = length mu ->
  rows_of_width nz mu -> rows_of_width nz logvar -> rows_of_width nz zs ->
  calc_mi g x = Ok (mi_estimate nz mu logvar zs, g').
Proof.
  intros Hf Hrep Hne Hlen Hmu Hlv Hzs.
  unfold calc_mi. rewrite Hf. cbn [bind unpack2].
  assert (Hshape : shape2 mu = (length mu, nz)).
  { unfold shape2. f_equal. destruct mu as [|m0 mu']; [congruence |].
    apply Hmu. left. reflexivity. }
  rewrite Hshape, Hrep.
  unfold mi_estimate. f_equal. f_equal. f_equal.
  - unfold negative_entropy, sum_last, map2d. rewrite !map_map. reflexivity.
  - f_equal.
    set (ps := combine mu logvar).
    assert (Emu : mu = map fst ps) by (symmetry; apply map_fst_combine; congruence).
    assert (Elv : logvar = map snd ps) by (symmetry; apply map_snd_combine; congruence).
    assert (Hps : ps <> []).
    { intros E. rewrite E in Emu. simpl in Emu. congruence. }
    rewrite Emu at 1. rewrite Elv at 1 2.
    rewrite (@log_density_table nz ps zs)
      by (try rewrite <- Emu; try rewrite <- Elv; assumption).
    unfold log_sum_exp_dim0.
    rewrite (columns_of_table (fun p z => gaussian_log_density z (fst p) (snd p))
                              zs log_sum_exp_vec [] Hps).
    rewrite map_map. reflexivity.
Qed.

(** An exception of [forward] leaves [calc_mi] unchanged: on the base class
    itself, whose [forward] raises [NotImplementedError], so does
    [calc_mi]. *)
Lemma calc_mi_forward_raises (g : Gen) (x : Input) (e : exn) :
  forward x = Raise e -> calc_mi g x = Raise e.
Proof. intros Hf. unfold calc_mi. rewrite Hf. reflexivity. Qed.

(** The unpacking decides before anything is computed: a tuple of any other
    length than two makes [calc_mi] raise [ValueError]. *)
Lemma calc_mi_arity (g : Gen) (x : Input) (t : list (list (list R))) :
  forward x = Ok t -> length t <> 2%nat -> calc_mi g x = Raise ValueError.
Proof.
  intros Hf Hlen. unfold calc_mi. rewrite Hf. cbn [bind].
  destruct t as [|a [|b [|c t']]]; try reflexivity.
  exfalso. apply Hlen. reflexivity.
Qed.

End MutualInformation.

(** *** [calc_mi] on the encoders of the class

    The method that [sample] and [encode] call, seen as the Python method
    that [calc_mi] calls: the same four tensors, returned as one tuple. *)
Definition as_method {Input : Type}
           (forward : Input -> list (list R) * list (list R)
                               * list (list R) * list (list R))
  : Input -> result (list (list (list R))) :=
  fun x =>
    let '(mu_c, logvar_c, mu_s, logvar_s) := forward x in
    Ok [mu_c; logvar_c; mu_s; logvar_s].

(** C6: on an encoder whose [forward] returns the four tensors that [sample]
    and [encode] unpack, as [LSTMEncoder.forward] does, [calc_mi] returns no
    estimate: for every input and every generator state the unpacking into
    [mu, logvar] raises [ValueError]. *)
Theorem calc_mi_raises_on_encoder (Input Gen : Type)
        (forward : Input -> list (list R) * list (list R)
                            * list (list R) * list (list R))
        (normal : Gen -> nat -> nat -> nat -> list (list (list R)) * Gen)
        (g : Gen) (x : Input) :
  calc_mi (as_method forward) normal g x = Raise ValueError.
Proof.
  apply (@calc_mi_arity Input Gen (as_method forward) normal g x
           (let '(mu_c, logvar_c, mu_s, logvar_s) := forward x in
            [mu_c; logvar_c; mu_s; logvar_s])).
  - unfold as_method. destruct (forward x) as [[[mu_c logvar_c] mu_s] logvar_s].
    reflexivity.
  - destruct (forward x) as [[[mu_c logvar_c] mu_s] logvar_s]. discriminate.
Qed.

End Encoder.

(** ** [SgivenC] *)

Module SgivenC.
Import Tensor.
Local Open Scope R_scope.
#[local] Set Default Proof Using "Type".

(** A sample tensor [n_sample x batch_size x width]. *)
Record Sample3 : Type :=
  mkSample3 { n_sample : nat;
              batch_size : nat;
              width : nat;
              values : list (list (list R)) }.

(** [x.view(batch_size * n_sample, width)] *)
Definition view (x : Sample3) : list (list R) := concat (values x).

Section Net.
Variable W1 : list (list R).                 (* [self.linear1.weight], 128 x nc *)
Variable W2 : list (list R).                 (* [self.linear2.weight], 2 ns x 128 *)
Variable Gen : Type.                         (* state of the random generator *)

(** [torch.randint(high, (size,))] *)
Variable randint : Gen -> nat -> nat -> list nat * Gen.

(** [MultivariateNormal(mean, covariance_matrix=cov).log_prob(value)] for
    one distribution and one value. *)
Variable mvn_log_prob : list R -> list (list R) -> list R -> R.

Definition dot (u v : list R) : R := sum_list (zip_with Rmult u v).

(** [nn.Linear(..., bias=False)] on one row. *)
Definition linear (W : list (list R)) (x : list R) : list R :=
  map (fun w => dot x w) W.

Definition relu (x : list R) : list R := map (Rmax 0) x.

(** [row.chunk(2, -1)]: two pieces, the first of [ceil(n / 2)] entries. *)
Definition chunk2 (row : list R) : list R * list R :=
  let k := Nat.div2 (S (length row)) in
  (firstn k row, skipn k row).

Definition forward (c : list (list R)) : list (list R) * list (list R) :=
  let output := map relu (map (linear W1) c) in
  let halves := map chunk2 (map (linear W2) output) in
  (map fst halves, map snd halves).

(** [nn.MSELoss(reduction='sum')] *)
Definition mse_sum (a b : list (list R)) : R :=
  sum_all (zip_with (zip_with (fun x y => (x - y) ^ 2)) a b).

Definition get_log_prob_total_distribution
           (mean_s_original logvar_s_original c : list (list R)) : R :=
  let (mean_s, logvar_s) := forward c in
  let batch_size := length mean_s in
  (mse_sum mean_s mean_s_original
   + mse_sum (map2d exp logvar_s) (map2d exp logvar_s_original))
  / INR batch_size.

(** [torch.diag_embed] of one row. *)
Definition diag_embed (v : list R) : list (list R) :=
  map (fun i => map (fun j => if (i =? j)%nat then nth i v 0 else 0)
                    (seq 0 (length v)))
      (seq 0 (length v)).

Fixpoint update (j : nat) (f : R -> R) (row : list R) : list R :=
  match row, j with
  | [], _ => []
  | x :: rest, O => f x :: rest
  | x :: rest, S j' => x :: update j' f rest
  end.

(** Assignment to one entry of a row; an index past the end raises. *)
Definition put (f : R -> R) (row : list R) (j : nat) : result (list R) :=
  if (j <? length row)%nat then Ok (update j f row) else Raise IndexError.

(** [a[torch.arange(n), idx] = ...]: entry [idx[i]] of row [i], for every
    row. *)
Definition index_rows (f : R -> R) (a : list (list R)) (idx : list nat)
  : result (list (list R)) :=
  if (length a =? length idx)%nat
  then for_each (fun p => put f (fst p) (snd p)) (combine a idx)
  else Raise IndexError.

Definition get_s_c_mi (g : Gen) (s c : Sample3) : result (R * Gen) :=
  let c := view c in
  let s := view s in
  let (mean_s, logvar_s) := forward c in
  let batch_size := length mean_s in
  let cov_s := map diag_embed (map2d (fun v => exp v + / 1000000) logvar_s) in
  let kernel :=
    map (fun s_i => map (fun d => mvn_log_prob (fst d) (snd d) s_i)
                        (combine mean_s cov_s))
        s in
  let (rand_idx, g') := randint g batch_size batch_size in
  let mask_tensor := map2d (fun _ => 0) kernel in
  if negb ((length mask_tensor =? batch_size)%nat
           && forallb (fun row => (length row =? batch_size)%nat) mask_tensor)
  then Raise AssertionError
  else
    mask1 <- index_rows (fun _ => -1) mask_tensor rand_idx ;;
    mask2 <- index_rows (fun x => x + 1) mask1 (seq 0 batch_size) ;;
    let masked_kernel := zip_with (zip_with Rmult) kernel mask2 in
    Ok (sum_all masked_kernel / INR batch_size, g').

(** The estimate as the specification words it: for example [i], with
    sample [s_i] and drawn index [j], the log-density of [s_i] under the
    distribution of content [i] minus that under the distribution of
    content [j]; averaged over the batch. *)
Definition contrastive_mi (log_p : list R -> nat -> R)
           (samples : list (list R)) (neg : list nat) : R :=
  sum_list (map (fun t => log_p (fst (fst t)) (snd (fst t)) - log_p (fst (fst t)) (snd t))
                (combine (combine samples (seq 0 (length samples))) neg))
  / INR (length samples).

(** The jittered distributions that [get_s_c_mi] builds from the contents. *)
Definition distributions (c : list (list R)) : list (list R * list (list R)) :=
  combine (fst (forward c))
          (map diag_embed (map2d (fun v => exp v + / 1000000) (snd (forward c)))).

Definition log_p_given (c : list (list R)) (s_i : list R) (j : nat) : R :=
  let d := nth j (distributions c) ([], []) in
  mvn_log_prob (fst d) (snd d) s_i.

(** *** The distribution-matching loss *)

Lemma zip_with_diag {A C : Type} (f : A -> A -> C) (l : list A) :
  zip_with f l l = map (fun x => f x x) l.
Proof.
  induction l as [|x rest IH]; [reflexivity |].
  rewrite zip_with_cons, IH. reflexivity.
Qed.

Lemma mse_sum_self (a : list (list R)) : mse_sum a a = 0.
Proof.
  unfold mse_sum, sum_all. apply sum_list_zero.
  intros x Hx. apply in_map_iff in Hx. destruct Hx as (row & <- & Hrow).
  rewrite zip_with_diag in Hrow. apply in_map_iff in Hrow.
  destruct Hrow as (r & <- & _).
  apply sum_list_zero. intros y Hy. rewrite zip_with_diag in Hy.
  apply in_map_iff in Hy. destruct Hy as (v & <- & _). lra.
Qed.

Lemma forward_length (c : list (list R)) :
  length (fst (forward c)) = length c /\ length (snd (forward c)) = length c.
Proof. unfold forward. simpl. rewrite !length_map. split; reflexivity. Qed.

(** C8: on a batch with at least one example, the loss evaluated with the
    reference parameters equal to the network's own output on the same
    contents is 0. *)
Theorem distribution_match_self (c : list (list R)) :
  (0 < length c)%nat ->
  get_log_prob_total_distribution (fst (forward c)) (snd (forward c)) c = 0.
Proof.
  intros _. unfold get_log_prob_total_distribution.
  destruct (forward c) as [mean_s logvar_s]. cbn [fst snd].
  rewrite !mse_sum_self. unfold Rdiv. lra.
Qed.

(** *** The contrastive estimate *)

Lemma length_update j f row : length (update j f row) = length row.
Proof.
  revert j. induction row as [|x rest IH]; intros [|j]; simpl; try reflexivity.
  rewrite IH. reflexivity.
Qed.

Lemma update_ext_in j (f k : R -> R) row :
  (forall x, In x row -> f x = k x) -> update j f row = update j k row.
Proof.
  revert j. induction row as [|x rest IH]; intros [|j] H; simpl; try reflexivity.
  - rewrite (H x (or_introl eq_refl)). reflexivity.
  - rewrite IH; [reflexivity |]. intros y Hy. apply H. right. exact Hy.
Qed.

Lemma sum_update_add (k m : list R) (i : nat) (a : R) :
  length k = length m -> (i < length m)%nat ->
  sum_list (zip_with Rmult k (update i (fun x => x + a) m))
  = sum_list (zip_with Rmult k m) + nth i k 0 * a.
Proof.
  revert k i. induction m as [|y m IH]; intros [|x k] [|i] Hlen Hi;
    simpl in Hlen, Hi; try discriminate; try lia.
  - simpl update. rewrite !zip_with_cons. simpl. lra.
  - simpl update. rewrite !zip_with_cons. simpl sum_list. simpl nth.
    rewrite IH by lia. lra.
Qed.

Lemma sum_mult_zeros (k m : list R) :
  (forall x, In x m -> x = 0) -> sum_list (zip_with Rmult k m) = 0.
Proof.
  intros Hz. apply sum_list_zero. intros x Hx.
  unfold zip_with in Hx. apply in_map_iff in Hx. destruct Hx as ([a b] & <- & Hin).
  simpl. rewrite (Hz b (in_combine_r _ _ _ _ Hin)). lra.
Qed.

(** One row of the masked kernel: [+1] on the diagonal entry, [-1] on the
    drawn entry, and their sum 0 when the two coincide. *)
Lemma masked_row {A : Type} (k : list R) (D : list A) (i j : nat) :
  length k = length D -> (i < length D)%nat -> (j < length D)%nat ->
  sum_list (zip_with Rmult k
              (update i (fun x => x + 1)
                      (update j (fun _ => -1) (map (fun _ => 0) D))))
  = nth i k 0 - nth j k 0.
Proof.
  intros Hk Hi Hj.
  assert (Hz : forall x, In x (map (fun _ : A => 0) D) -> x = 0).
  { intros x Hx. apply in_map_iff in Hx. destruct Hx as (d & <- & _). reflexivity. }
  rewrite (update_ext_in j (fun _ => -1) (fun x => x + -1))
    by (intros x Hx; rewrite (Hz x Hx); lra).
  rewrite sum_update_add by (rewrite ?length_update, length_map; assumption).
  rewrite sum_update_add by (rewrite length_map; assumption).
  rewrite (@sum_mult_zeros k _ Hz). lra.
Qed.

Lemma index_rows_ok (f : R -> R) (a : list (list R)) (idx : list nat) (w : nat) :
  length a = length idx -> rows_of_width w a ->
  (forall j, In j idx -> (j < w)%nat) ->
  index_rows f a idx = Ok (zip_with (fun row j => update j f row) a idx).
Proof.
  intros Hlen Hw Hidx. unfold index_rows. rewrite Hlen, Nat.eqb_refl.
  unfold zip_with. apply for_each_all_ok.
  intros [row j] Hin. cbn [fst snd]. unfold put.
  rewrite (Hw row (in_combine_l _ _ _ _ Hin)).
  pose proof (Hidx j (in_combine_r _ _ _ _ Hin)) as Hj.
  apply Nat.ltb_lt in Hj. rewrite Hj. reflexivity.
Qed.

Lemma zip_update_width (f : R -> R) (a : list (list R)) (idx : list nat) (w : nat) :
  rows_of_width w a ->
  rows_of_width w (zip_with (fun row j => update j f row) a idx).
Proof.
  intros Hw row Hrow. unfold zip_with in Hrow. apply in_map_iff in Hrow.
  destruct Hrow as ([r j] & <- & Hin). cbn [fst snd].
  rewrite length_update. apply Hw. exact (in_combine_l _ _ _ _ Hin).
Qed.

Lemma masked_kernel_sum {A : Type} (lp : A -> list R -> R) (D : list A) (d0 : A) :
  forall (samples : list (list R)) (neg : list nat) (s : nat),
    length neg = length samples ->
    (s + length samples <= length D)%nat ->
    (forall j, In j neg -> (j < length D)%nat) ->
    sum_all
      (zip_with (zip_with Rmult)
         (map (fun s_i => map (fun d => lp d s_i) D) samples)
         (zip_with (fun row i => update i (fun x => x + 1) row)
            (zip_with (fun row j => update j (fun _ => -1) row)
               (map2d (fun _ => 0) (map (fun s_i => map (fun d => lp d s_i) D) samples))
               neg)
            (seq s (length samples))))
    = sum_list
        (map (fun t => lp (nth (snd (fst t)) D d0) (fst (fst t))
                       - lp (nth (snd t) D d0) (fst (fst t)))
             (combine (combine samples (seq s (length samples))) neg)).
Proof.
  induction samples as [|s_i samples IH]; intros [|j neg] s Hlen Hs Hneg;
    simpl in Hlen; try discriminate.
  - reflexivity.
  - cbn [length seq map map2d combine]. rewrite !zip_with_cons.
    unfold sum_all in *. cbn [map sum_list fold_right fst snd].
    fold (sum_list (map sum_list
      (zip_with (zip_with Rmult)
         (map (fun s_i0 => map (fun d => lp d s_i0) D) samples)
         (zip_with (fun row i => update i (fun x => x + 1) row)
            (zip_with (fun row j0 => update j0 (fun _ => -1) row)
               (map (map (fun _ : R => 0))
                    (map (fun s_i0 => map (fun d => lp d s_i0) D) samples))
               neg)
            (seq (S s) (length samples)))))).
    change (map (map (fun _ : R => 0))
                (map (fun s_i0 => map (fun d => lp d s_i0) D) samples))
      with (map2d (fun _ => 0) (map (fun s_i0 => map (fun d => lp d s_i0) D) samples)).
    rewrite IH; [| simpl in Hlen; lia | simpl in Hs; lia
                 | intros j' Hj'; apply Hneg; right; exact Hj'].
    rewrite map_map.
    rewrite (@masked_row A (map (fun d => lp d s_i) D) D s j)
      by (rewrite ?length_map; simpl in Hs; try lia;
          apply Hneg; left; reflexivity).
    assert (Hnth : forall i, (i < length D)%nat ->
                             nth i (map (fun d => lp d s_i) D) 0 = lp (nth i D d0) s_i).
    { intros i Hi. rewrite (nth_indep _ 0 (lp d0 s_i)) by (rewrite length_map; exact Hi).
      apply (map_nth (fun d => lp d s_i)). }
    rewrite !Hnth by (simpl in Hs; try lia; apply Hneg; left; reflexivity).
    reflexivity.
Qed.

(** C7: with [n] examples and the indices [neg] that [torch.randint] draws
    from the generator handed to this call, [get_s_c_mi] returns the average
    over the examples [i] of [log p(s_i | c_i) - log p(s_i | c_j)], [j] being
    the index drawn for [i], together with the generator as the draw left
    it: nothing of an earlier draw is kept. *)
Theorem get_s_c_mi_formula (g g' : Gen) (s c : Sample3) (neg : list nat) :
  length (view s) = length (view c) ->
  randint g (length (view c)) (length (view c)) = (neg, g') ->
  length neg = length (view c) ->
  (forall j, In j neg -> (j < length (view c))%nat) ->
  get_s_c_mi g s c
  = Ok (contrastive_mi (log_p_given (view c)) (view s) neg, g').
Proof.
  intros Hs Hrand Hneg Hrange.
  unfold get_s_c_mi, contrastive_mi, log_p_given, distributions.
  destruct (forward_length (view c)) as [Hm Hl].
  destruct (forward (view c)) as [mean_s logvar_s] eqn:Ef. cbn [fst snd] in *.
  rewrite Hm, Hrand.
  set (cov_s := map diag_embed (map2d (fun v => exp v + / 1000000) logvar_s)).
  set (D := combine mean_s cov_s).
  set (n := length (view c)) in *.
  assert (HD : length D = n).
  { unfold D, cov_s, map2d. rewrite length_combine, !length_map, Hm, Hl.
    apply Nat.min_id. }
  set (kernel := map (fun s_i => map (fun d => mvn_log_prob (fst d) (snd d) s_i) D)
                     (view s)).
  assert (Hkw : rows_of_width n (map2d (fun _ => 0) kernel)).
  { intros row Hrow. unfold map2d, kernel in Hrow. rewrite map_map in Hrow.
    apply in_map_iff in Hrow. destruct Hrow as (s_i & <- & _).
    rewrite !length_map. exact HD. }
  assert (Hklen : length (map2d (fun _ => 0) kernel) = n).
  { unfold map2d, kernel. rewrite !length_map. exact Hs. }
  rewrite Hklen, Nat.eqb_refl.
  assert (Hall : forallb (fun row => (length row =? n)%nat) (map2d (fun _ => 0) kernel)
                 = true).
  { apply forallb_forall. intros row Hrow. apply Nat.eqb_eq. apply Hkw, Hrow. }
  rewrite Hall. cbn [andb negb].
  rewrite (@index_rows_ok (fun _ => -1) _ neg n) by (try assumption; congruence).
  cbn [bind].
  rewrite (@index_rows_ok (fun x => x + 1) _ (seq 0 n) n).
  2:{ rewrite length_zip_with by congruence. rewrite Hklen, length_seq. reflexivity. }
  2:{ apply zip_update_width. exact Hkw. }
  2:{ intros j Hj. apply in_seq in Hj. lia. }
  cbn [bind]. f_equal. f_equal. rewrite Hs. f_equal.
  unfold kernel. fold n. rewrite <- Hs.
  apply (@masked_kernel_sum _ (fun d s_i => mvn_log_prob (fst d) (snd d) s_i) D ([], [])).
  - congruence.
  - rewrite HD, Hs. simpl. lia.
  - intros j Hj. rewrite HD. apply Hrange, Hj.
Qed.

(** *** The shape of what [forward] returns *)

Lemma linear_length (W : list (list R)) (x : list R) : length (linear W x) = length W.
Proof. unfold linear. apply length_map. Qed.

Lemma chunk2_even (ns : nat) (row : list R) :
  length row = (2 * ns)%nat ->
  length (fst (chunk2 row)) = ns /\ length (snd (chunk2 row)) = ns.
Proof.
  intros Hlen. unfold chunk2. rewrite Hlen, Nat.div2_succ_double. cbn [fst snd].
  rewrite length_firstn, length_skipn, Hlen. lia.
Qed.

(** X14: with [2 * ns] output units in the second layer, [forward] returns one
    mean row and one log-variance row per content row, each of [ns]
    entries. *)
Theorem forward_shapes (ns : nat) (c : list (list R)) :
  length W2 = (2 * ns)%nat ->
  length (fst (forward c)) = length c /\
  length (snd (forward c)) = length c /\
  rows_of_width ns (fst (forward c)) /\
  rows_of_width ns (snd (forward c)).
Proof.
  intros HW. destruct (forward_length c) as [H1 H2].
  split; [exact H1 |]. split; [exact H2 |].
  unfold forward. cbn [fst snd]. rewrite !map_map.
  split; intros row Hrow; apply in_map_iff in Hrow; destruct Hrow as (x & <- & _);
    apply chunk2_even; rewrite linear_length; exact HW.
Qed.

(** *** The sign of the distribution-matching loss *)

Definition same_shape (a b : list (list R)) : Prop :=
  Forall2 (fun r1 r2 : list R => length r1 = length r2) a b.

Lemma sq_row_nonneg (r1 r2 : list R) :
  0 <= sum_list (zip_with (fun x y => (x - y) ^ 2) r1 r2).
Proof.
  revert r2. induction r1 as [|x r1 IH]; intros [|y r2]; try (simpl; lra).
  rewrite zip_with_cons. unfold sum_list in *. cbn [fold_right].
  pose proof (IH r2). pose proof (pow2_ge_0 (x - y)). lra.
Qed.

Lemma mse_sum_nonneg (a b : list (list R)) : 0 <= mse_sum a b.
Proof.
  unfold mse_sum, sum_all. revert b.
  induction a as [|r1 a IH]; intros [|r2 b]; try (simpl; lra).
  rewrite zip_with_cons. cbn [map]. unfold sum_list at 1. cbn [fold_right].
  fold (sum_list (map sum_list (zip_with (zip_with (fun x y => (x - y) ^ 2)) a b))).
  pose proof (IH b). pose proof (sq_row_nonneg r1 r2). lra.
Qed.

Lemma sq_row_zero_inv (r1 r2 : list R) :
  length r1 = length r2 ->
  sum_list (zip_with (fun x y => (x - y) ^ 2) r1 r2) = 0 -> r1 = r2.
Proof.
  revert r2. induction r1 as [|x r1 IH]; intros [|y r2] Hlen Hs;
    simpl in Hlen; try discriminate; [reflexivity |].
  rewrite zip_with_cons in Hs. unfold sum_list in Hs. cbn [fold_right] in Hs.
  fold (sum_list (zip_with (fun x y => (x - y) ^ 2) r1 r2)) in Hs.
  pose proof (sq_row_nonneg r1 r2) as Hrest. pose proof (pow2_ge_0 (x - y)) as Hsq.
  assert (Hxy : x - y = 0).
  { destruct (Req_dec (x - y) 0) as [E | NE]; [exact E | exfalso].
    assert (0 < (x - y) ^ 2).
    { destruct (Rtotal_order (x - y) 0) as [Hn | [Hz | Hp]]; [| contradiction |].
      - replace ((x - y) ^ 2) with ((- (x - y)) ^ 2) by ring. apply pow_lt. lra.
      - apply pow_lt. exact Hp. }
    lra. }
  f_equal; [lra |]. apply IH; [lia |]. rewrite Hxy in Hs. lra.
Qed.

Lemma mse_sum_zero_inv (a b : list (list R)) :
  same_shape a b -> mse_sum a b = 0 -> a = b.
Proof.
  unfold mse_sum, sum_all. induction 1 as [|r1 r2 a b Hr Hrest IH]; intros Hs;
    [reflexivity |].
  rewrite zip_with_cons in Hs. cbn [map] in Hs.
  unfold sum_list at 1 in Hs. cbn [fold_right] in Hs.
  fold (sum_list (map sum_list (zip_with (zip_with (fun x y => (x - y) ^ 2)) a b))) in Hs.
  pose proof (mse_sum_nonneg a b) as Hab. unfold mse_sum, sum_all in Hab.
  pose proof (sq_row_nonneg r1 r2) as Hrow.
  f_equal; [apply sq_row_zero_inv; [exact Hr | lra] | apply IH; lra].
Qed.

Lemma same_shape_exp (a b : list (list R)) :
  same_shape a b -> same_shape (map2d exp a) (map2d exp b).
Proof.
  unfold same_shape, map2d. induction 1 as [|r1 r2 a b Hr Hrest IH]; simpl;
    constructor; [rewrite !length_map; exact Hr | exact IH].
Qed.

Lemma map2d_exp_inj (a b : list (list R)) : map2d exp a = map2d exp b -> a = b.
Proof.
  unfold map2d. revert b. induction a as [|r1 a IH]; intros [|r2 b] H;
    simpl in H; try discriminate; [reflexivity |].
  injection H as Hrow Hrest. f_equal; [| apply IH, Hrest].
  clear -Hrow. revert r2 Hrow.
  induction r1 as [|x r1 IHr]; intros [|y r2] H; simpl in H; try discriminate;
    [reflexivity |].
  injection H as Hx Hr. f_equal; [apply exp_inv, Hx | apply IHr, Hr].
Qed.

(** X15: on a batch with at least one example the loss is never negative. *)
Theorem distribution_match_nonnegative (mean_ref logvar_ref c : list (list R)) :
  (0 < length c)%nat ->
  0 <= get_log_prob_total_distribution mean_ref logvar_ref c.
Proof.
  intros Hc. unfold get_log_prob_total_distribution.
  destruct (forward_length c) as [Hm _].
  destruct (forward c) as [mean_s logvar_s]. cbn [fst] in Hm. rewrite Hm.
  pose proof (mse_sum_nonneg mean_s mean_ref).
  pose proof (mse_sum_nonneg (map2d exp logvar_s) (map2d exp logvar_ref)).
  apply Rmult_le_pos; [lra |].
  apply Rlt_le, Rinv_0_lt_compat, lt_0_INR, Hc.
Qed.

(** X16: on a batch with at least one example and reference parameters of the
    shapes the network returns, the loss is 0 only when the references are
    the network's own output on the contents. *)
Theorem distribution_match_zero_only_at_self (mean_ref logvar_ref c : list (list R)) :
  (0 < length c)%nat ->
  same_shape (fst (forward c)) mean_ref ->
  same_shape (snd (forward c)) logvar_ref ->
  get_log_prob_total_distribution mean_ref logvar_ref c = 0 ->
  mean_ref = fst (forward c) /\ logvar_ref = snd (forward c).
Proof.
  intros Hc Hsm Hsl. unfold get_log_prob_total_distribution.
  destruct (forward_length c) as [Hm _].
  destruct (forward c) as [mean_s logvar_s]. cbn [fst snd] in *. rewrite Hm.
  intros Hz.
  pose proof (mse_sum_nonneg mean_s mean_ref) as H1.
  pose proof (mse_sum_nonneg (map2d exp logvar_s) (map2d exp logvar_ref)) as H2.
  assert (Hn : 0 < INR (length c)) by (apply lt_0_INR, Hc).
  assert (Hsum : mse_sum mean_s mean_ref
                 + mse_sum (map2d exp logvar_s) (map2d exp logvar_ref) = 0).
  { unfold Rdiv in Hz. apply Rmult_integral in Hz. destruct Hz as [Hz | Hz];
      [exact Hz |].
    exfalso. pose proof (Rinv_0_lt_compat _ Hn). lra. }
  split.
  - symmetry. apply mse_sum_zero_inv; [exact Hsm | lra].
  - symmetry. apply map2d_exp_inj.
    apply mse_sum_zero_inv; [apply same_shape_exp, Hsl | lra].
Qed.

(** *** [get_log_prob_total] *)

(** [torch.trace]: the sum of the diagonal entries of a rank-2 tensor;
    [trace_from k] starts at column [k] of the first row. *)
Fixpoint trace_from (k : nat) (a : list (list R)) : R :=
  match a with
  | [] => 0
  | row :: rest => nth k row 0 + trace_from (S k) rest
  end.

Definition trace (a : list (list R)) : R := trace_from 0 a.

Definition get_log_prob_total (s c : list (list R)) : R :=
  let (mean_s, logvar_s) := forward c in
  let batch_size := length mean_s in
  let cov_s := map diag_embed (map2d (fun v => exp v + / 1000000) logvar_s) in
  let kernel :=
    map (fun s_i => map (fun d => mvn_log_prob (fst d) (snd d) s_i)
                        (combine mean_s cov_s))
        s in
  trace kernel / INR batch_size.

Lemma trace_kernel {A : Type} (lp : A -> list R -> R) (D : list A) (d0 : A) :
  forall (samples : list (list R)) (k : nat),
    (k + length samples <= length D)%nat ->
    trace_from k (map (fun s_i => map (fun d => lp d s_i) D) samples)
    = sum_list (map (fun t => lp (nth (snd t) D d0) (fst t))
                    (combine samples (seq k (length samples)))).
Proof.
  induction samples as [|s_i samples IH]; intros k Hk; [reflexivity |].
  cbn [map trace_from length seq combine fst snd]. unfold sum_list. cbn [fold_right].
  fold (sum_list (map (fun t => lp (nth (snd t) D d0) (fst t))
                      (combine samples (seq (S k) (length samples))))).
  rewrite <- IH by (simpl in Hk; lia).
  f_equal. simpl in Hk.
  rewrite (nth_indep _ 0 (lp d0 s_i)) by (rewrite length_map; lia).
  apply (map_nth (fun d => lp d s_i)).
Qed.

(** X17: [get_log_prob_total] is the average, over the examples, of the
    log-density of sample [i] under the distribution built from content
    [i]. *)
Theorem get_log_prob_total_average (s c : list (list R)) :
  length s = length c ->
  get_log_prob_total s c
  = sum_list (map (fun t => log_p_given c (fst t) (snd t))
                  (combine s (seq 0 (length s))))
    / INR (length c).
Proof.
  intros Hs. unfold get_log_prob_total, log_p_given, distributions.
  destruct (forward_length c) as [Hm Hl].
  destruct (forward c) as [mean_s logvar_s]. cbn [fst snd] in *.
  rewrite Hm. f_equal.
  set (D := combine mean_s
                    (map diag_embed (map2d (fun v => exp v + / 1000000) logvar_s))).
  assert (HD : length D = length c).
  { unfold D, map2d. rewrite length_combine, !length_map, Hm, Hl. apply Nat.min_id. }
  unfold trace.
  apply (@trace_kernel _ (fun d s_i => mvn_log_prob (fst d) (snd d) s_i) D ([], []) s 0).
  rewrite HD, Hs. lia.
Qed.

(** *** [get_s_c_mi] beside [get_log_prob_total] *)

Lemma get_s_c_mi_value (g g' : Gen) (s c : Sample3) (neg : list nat) :
  length (view s) = length (view c) ->
  randint g (length (view c)) (length (view c)) = (neg, g') ->
  length neg = length (view c) ->
  (forall j, In j neg -> (j < length (view c))%nat) ->
  get_s_c_mi g s c
  = Ok (contrastive_mi (log_p_given (view c)) (view s) neg, g').
Proof.
  intros Hs Hrand Hneg Hrange.
  unfold get_s_c_mi, contrastive_mi, log_p_given, distributions.
  destruct (forward_length (view c)) as [Hm Hl].
  destruct (forward (view c)) as [mean_s logvar_s] eqn:Ef. cbn [fst snd] in *.
  rewrite Hm, Hrand.
  set (cov_s := map diag_embed (map2d (fun v => exp v + / 1000000) logvar_s)).
  set (D := combine mean_s cov_s).
  set (n := length (view c)) in *.
  assert (HD : length D = n).
  { unfold D, cov_s, map2d. rewrite length_combine, !length_map, Hm, Hl.
    apply Nat.min_id. }
  set (kernel := map (fun s_i => map (fun d => mvn_log_prob (fst d) (snd d) s_i) D)
                     (view s)).
  assert (Hkw : rows_of_width n (map2d (fun _ => 0) kernel)).
  { intros row Hrow. unfold map2d, kernel in Hrow. rewrite map_map in Hrow.
    apply in_map_iff in Hrow. destruct Hrow as (s_i & <- & _).
    rewrite !length_map. exact HD. }
  assert (Hklen : length (map2d (fun _ => 0) kernel) = n).
  { unfold map2d, kernel. rewrite !length_map. exact Hs. }
  rewrite Hklen, Nat.eqb_refl.
  assert (Hall : forallb (fun row => (length row =? n)%nat) (map2d (fun _ => 0) kernel)
                 = true).
  { apply forallb_forall. intros row Hrow. apply Nat.eqb_eq. apply Hkw, Hrow. }
  rewrite Hall. cbn [andb negb].
  rewrite (@index_rows_ok (fun _ => -1) _ neg n) by (try assumption; congruence).
  cbn [bind].
  rewrite (@index_rows_ok (fun x => x + 1) _ (seq 0 n) n).
  2:{ rewrite length_zip_with by congruence. rewrite Hklen, length_seq. reflexivity. }
  2:{ apply zip_update_width. exact Hkw. }
  2:{ intros j Hj. apply in_seq in Hj. lia. }
  cbn [bind]. f_equal. f_equal. rewrite Hs. f_equal.
  unfold kernel. fold n. rewrite <- Hs.
  apply (@masked_kernel_sum _ (fun d s_i => mvn_log_prob (fst d) (snd d) s_i) D ([], [])).
  - congruence.
  - rewrite HD, Hs. simpl. lia.
  - intros j Hj. rewrite HD. apply Hrange, Hj.
Qed.

Lemma sum_of_differences {A : Type} (F : A -> nat -> R) :
  forall (samples : list A) (own neg : list nat),
    length own = length samples -> length neg = length samples ->
    sum_list (map (fun t => F (fst (fst t)) (snd (fst t)) - F (fst (fst t)) (snd t))
                  (combine (combine samples own) neg))
    = sum_list (map (fun t => F (fst t) (snd t)) (combine samples own))
      - sum_list (map (fun t => F (fst t) (snd t)) (combine samples neg)).
Proof.
  induction samples as [|x samples IH]; intros [|i own] [|j neg] Ho Hn;
    simpl in Ho, Hn; try discriminate.
  - simpl. lra.
  - cbn [combine map fst snd]. unfold sum_list in *. cbn [fold_right].
    rewrite IH by lia. lra.
Qed.

Lemma sum_of_equal_pairs {A : Type} (F : A -> nat -> R) :
  forall (samples : list A) (own : list nat),
    sum_list (map (fun t => F (fst (fst t)) (snd (fst t)) - F (fst (fst t)) (snd t))
                  (combine (combine samples own) own))
    = 0.
Proof.
  induction samples as [|x samples IH]; intros [|i own]; try reflexivity.
  cbn [combine map fst snd]. unfold sum_list in *. cbn [fold_right].
  rewrite IH. lra.
Qed.

(** X18: the estimate is the expected log-density of the true pairs,
    [get_log_prob_total], minus the average log-density of each sample
    under the distribution of the content drawn for it. *)
Theorem contrastive_splits (g g' : Gen) (s c : Sample3) (neg : list nat) :
  length (view s) = length (view c) ->
  randint g (length (view c)) (length (view c)) = (neg, g') ->
  length neg = length (view c) ->
  (forall j, In j neg -> (j < length (view c))%nat) ->
  get_s_c_mi g s c
  = Ok (get_log_prob_total (view s) (view c)
        - sum_list (map (fun t => log_p_given (view c) (fst t) (snd t))
                        (combine (view s) neg))
          / INR (length (view c)),
        g').
Proof.
  intros Hs Hrand Hneg Hrange.
  rewrite (get_s_c_mi_value _ _ Hs Hrand Hneg Hrange).
  f_equal. f_equal. unfold contrastive_mi.
  rewrite sum_of_differences by (rewrite ?length_seq; congruence).
  assert (Htot : get_log_prob_total (view s) (view c)
                 = sum_list (map (fun t => log_p_given (view c) (fst t) (snd t))
                                 (combine (view s) (seq 0 (length (view s)))))
                   / INR (length (view c))).
  { unfold get_log_prob_total, log_p_given, distributions.
    destruct (forward_length (view c)) as [Hm Hl].
    destruct (forward (view c)) as [mean_s logvar_s]. cbn [fst snd] in *.
    rewrite Hm. f_equal. unfold trace.
    apply (@trace_kernel _ (fun d s_i => mvn_log_prob (fst d) (snd d) s_i) _
                         ([], []) (view s) 0).
    unfold map2d. rewrite length_combine, !length_map, Hm, Hl, Nat.min_id, Hs. lia. }
  rewrite Htot, Hs. unfold Rdiv. lra.
Qed.

(** The shapes under which the tensor operations of [get_s_c_mi] before its
    assertion go through: the two layers fit the content width [nc] and each
    other, the second layer has [2 * ns] output units with [ns] positive,
    and the content rows and the sample rows have widths [nc] and [ns]. *)
Definition shapes_fit (nc ns : nat) (s c : list (list R)) : Prop :=
  rows_of_width nc W1 /\ rows_of_width (length W1) W2 /\
  length W2 = (2 * ns)%nat /\ (0 < ns)%nat /\
  rows_of_width nc c /\ rows_of_width ns s.

(** X19: on non-empty samples and non-empty contents of fitting shapes that
    do not come in equal number, the assertion on the mask fails. *)
Theorem get_s_c_mi_row_mismatch (g : Gen) (s c : Sample3) (nc ns : nat) :
  (0 < length (view c))%nat -> (0 < length (view s))%nat ->
  shapes_fit nc ns (view s) (view c) ->
  length (view s) <> length (view c) ->
  get_s_c_mi g s c = Raise AssertionError.
Proof.
  intros _ _ _ Hne. unfold get_s_c_mi.
  destruct (forward_length (view c)) as [Hm _].
  destruct (forward (view c)) as [mean_s logvar_s]. cbn [fst] in Hm.
  destruct (randint g (length mean_s) (length mean_s)) as [rand_idx g1].
  unfold map2d. rewrite !length_map, Hm.
  apply Nat.eqb_neq in Hne. rewrite Hne. reflexivity.
Qed.

(** X20: when the index drawn for every example is the example's own, the
    estimate is 0 on a batch with at least one example. *)
Theorem contrastive_own_index (g g' : Gen) (s c : Sample3) :
  (0 < length (view c))%nat ->
  length (view s) = length (view c) ->
  randint g (length (view c)) (length (view c)) = (seq 0 (length (view c)), g') ->
  get_s_c_mi g s c = Ok (0, g').
Proof.
  intros Hc Hs Hrand.
  rewrite (get_s_c_mi_value _ _ Hs Hrand).
  - f_equal. f_equal. unfold contrastive_mi. rewrite Hs.
    rewrite (sum_of_equal_pairs (log_p_given (view c))). unfold Rdiv. lra.
  - apply length_seq.
  - intros j Hj. apply in_seq in Hj. lia.
Qed.

End Net.
End SgivenC.

(** ** The forced decoder of the end-to-end scenarios

    Vocabulary [<s>, </s>, a, b] with ids 0 to 3.  The recurrent state only
    counts the steps taken; at step 1 the decoder puts nearly all the mass on
    [a], at step 2 on [</s>], and it is uniform afterwards. *)

Module Scenario.
Local Open Scope Q_scope.

Definition vocab : list string := ["<s>"; "</s>"; "a"; "b"]%string.

Definition id2word (i : nat) : string := nth i vocab "<unk>"%string.

Definition bos : nat := 0.
Definition eos : nat := 1.
Definition tok_a : nat := 2.

Definition forced_scores (step : nat) : list Q :=
  match step with
  | 0%nat => [-(57 # 10); -(57 # 10); -(1 # 100); -(57 # 10)]
  | 1%nat => [-(57 # 10); -(1 # 100); -(57 # 10); -(57 # 10)]
  | _ => [-(139 # 100); -(139 # 100); -(139 # 100); -(139 # 100)]
  end.

Definition forced_step (z_idx : list Q) (hc : nat * nat) (w : nat)
  : list Q * (nat * nat) :=
  (forced_scores (fst hc), (S (fst hc), S (snd hc))).

Definition trans0 (z_idx : list Q) : nat := 0%nat.
Definition tanh0 (x : nat) : nat := x.

Lemma forced_step_well_formed (z_idx : list Q) :
  Beam.well_formed 4 forced_step z_idx.
Proof.
  intros [hh cc] w. unfold forced_step. cbn [fst].
  destruct hh as [|[|hh]]; (split; [reflexivity |]);
    intros x Hx; simpl in Hx;
    repeat (destruct Hx as [<- | Hx]; [discriminate |]); contradiction.
Qed.

Lemma forced_step_forced (z_idx : list Q) :
  Beam.forced bos eos trans0 tanh0 forced_step (1 # 100) (57 # 10) tok_a z_idx.
Proof.
  split; (split; [eexists; split; [reflexivity | discriminate] |]);
    intros j x Hj Hne;
    do 4 (destruct j as [|j]; [simpl in Hj; inversion Hj; subst x;
                               first [ discriminate | exfalso; apply Hne; reflexivity ] |]);
    destruct j; discriminate Hj.
Qed.

Definition init2 : Beam.beam_state nat :=
  Beam.init_state bos trans0 tanh0 [0].

Definition state_of (r : result (Beam.beam_state nat)) : Beam.beam_state nat :=
  match r with
  | Ok st => st
  | Raise _ => init2
  end.

(** The state after the first EXPAND step with [K = 2]. *)
Definition after1 : Beam.beam_state nat :=
  state_of (Beam.expand 4 eos forced_step 2 [0] init2).

Lemma expand_within_beam_witness :
  Beam.loop_guard 2 3 init2 = true /\
  Beam.expand 4 eos forced_step 2 [0] init2 = Ok after1 /\
  (Z.of_nat (length (Beam.live_hypotheses after1)
             + length (Beam.completed_hypotheses after1)) <= 2)%Z.
Proof.
  assert (G : Beam.loop_guard 2 3 init2 = true) by reflexivity.
  assert (E : Beam.expand 4 eos forced_step 2 [0] init2 = Ok after1)
    by (vm_compute; reflexivity).
  split; [exact G |]. split; [exact E |].
  exact (Beam.expand_within_beam 4 eos forced_step 2 3 [0] init2 G E).
Defined.

Lemma live_nonempty_at_expand_witness :
  Beam.reachable 4 bos eos trans0 tanh0 forced_step 2 3 [0] after1 /\
  Beam.loop_guard 2 3 after1 = true /\
  Beam.live_hypotheses after1 <> [].
Proof.
  assert (R : Beam.reachable 4 bos eos trans0 tanh0 forced_step 2 3 [0] after1).
  { apply Beam.reach_expand with (st := init2).
    - apply Beam.reach_init.
    - reflexivity.
    - vm_compute; reflexivity. }
  assert (G : Beam.loop_guard 2 3 after1 = true) by (vm_compute; reflexivity).
  split; [exact R |]. split; [exact G |].
  exact (proj1 (Beam.live_nonempty_at_expand R G)).
Defined.

Definition three_words : list string := [id2word bos; id2word tok_a; id2word eos].

Lemma forced_beam_search_decode_witness :
  Beam.latent_rows (Beam.Joint [[0]; [1]]) = Ok [[0]; [1]] /\
  tok_a <> eos /\
  2 * (1 # 100) < 57 # 10 /\
  (forall z_idx, In z_idx [[0]; [1]] ->
                 Beam.well_formed 4 forced_step z_idx /\
                 Beam.forced bos eos trans0 tanh0 forced_step
                             (1 # 100) (57 # 10) tok_a z_idx) /\
  Beam.beam_search_decode 4 bos eos id2word trans0 tanh0 forced_step
                          (Beam.Joint [[0]; [1]]) 2 3
  = Ok [three_words; three_words].
Proof.
  assert (H0 : Beam.latent_rows (Beam.Joint [[0]; [1]]) = Ok [[0]; [1]])
    by reflexivity.
  assert (H1 : tok_a <> eos) by discriminate.
  assert (H2 : 2 * (1 # 100) < 57 # 10) by reflexivity.
  assert (H3 : forall z_idx, In z_idx [[0]; [1]] ->
                 Beam.well_formed 4 forced_step z_idx /\
                 Beam.forced bos eos trans0 tanh0 forced_step
                             (1 # 100) (57 # 10) tok_a z_idx)
    by (intros z_idx _; split;
        [apply forced_step_well_formed | apply forced_step_forced]).
  split; [exact H0 |]. split; [exact H1 |]. split; [exact H2 |]. split; [exact H3 |].
  exact (Beam.forced_beam_search_decode id2word (Beam.Joint [[0]; [1]]) H0 H1 H2 H3).
Defined.

(** The claimed result [["a"; "</s>"]] is not what the forced decoder
    returns: the sequence starts with the word of the root node. *)
Lemma beam_keeps_bos_counterexample :
  Beam.well_formed 4 forced_step [0] /\
  Beam.forced bos eos trans0 tanh0 forced_step (1 # 100) (57 # 10) tok_a [0] /\
  Beam.beam_search_decode 4 bos eos id2word trans0 tanh0 forced_step
                          (Beam.Joint [[0]]) 2 3
  = Ok [["<s>"; "a"; "</s>"]%string] /\
  Beam.beam_search_decode 4 bos eos id2word trans0 tanh0 forced_step
                          (Beam.Joint [[0]]) 2 3
  <> Ok [["a"; "</s>"]%string].
Proof.
  split; [apply forced_step_well_formed |].
  split; [apply forced_step_forced |].
  split; [vm_compute; reflexivity |].
  vm_compute. discriminate.
Qed.

(** The greedy decoder on the same forced decoder; the generator is not
    used. *)
Definition no_sampling (g : unit) (row : list Q) : nat * unit := (0%nat, g).

Definition one_sample : Tensor3 := mkTensor3 1 2 1 [[[0]; [1]]].
Definition two_samples : Tensor3 := mkTensor3 2 1 1 [[[0]]; [[1]]].
Definition three_rows : Tensor3 := mkTensor3 1 3 1 [[[0]; [1]; [2]]].

Lemma forced_step_greedy (c_i : list Q) :
  Greedy.forced bos eos trans0 tanh0 forced_step tok_a c_i.
Proof. split; reflexivity. Qed.

Lemma forced_greedy_decode_witness :
  size0 one_sample = 1%nat /\
  tok_a <> eos /\
  (forall c_i, In c_i (view2 one_sample) ->
               Greedy.forced bos eos trans0 tanh0 forced_step tok_a c_i) /\
  Greedy.decode bos eos id2word trans0 tanh0 forced_step no_sampling tt one_sample true
  = Ok ([["a"; "</s>"]; ["a"; "</s>"]]%string, tt).
Proof.
  assert (H1 : size0 one_sample = 1%nat) by reflexivity.
  assert (H2 : tok_a <> eos) by discriminate.
  assert (H3 : forall c_i, In c_i (view2 one_sample) ->
                           Greedy.forced bos eos trans0 tanh0 forced_step tok_a c_i)
    by (intros c_i _; apply forced_step_greedy).
  split; [exact H1 |]. split; [exact H2 |]. split; [exact H3 |].
  exact (Greedy.forced_greedy_decode id2word no_sampling tt one_sample H1 H2 H3).
Defined.

(** The claimed result [["a"]] per example is not what the greedy loop
    returns on the forced decoder: the end-of-sequence word is there. *)
Lemma greedy_keeps_eos_counterexample :
  (forall c_i, Greedy.forced bos eos trans0 tanh0 forced_step tok_a c_i) /\
  Greedy.decode bos eos id2word trans0 tanh0 forced_step no_sampling tt one_sample true
  = Ok ([["a"; "</s>"]; ["a"; "</s>"]]%string, tt) /\
  Greedy.decode bos eos id2word trans0 tanh0 forced_step no_sampling tt one_sample true
  <> Ok ([["a"]; ["a"]]%string, tt).
Proof.
  split; [apply forced_step_greedy |].
  split; [vm_compute; reflexivity |].
  vm_compute. discriminate.
Qed.

Definition zero_network (inputs : list (list nat)) (c s : list (list Q)) : list Q := [].

Lemma shape_violations_raise_witness :
  Forward.lstm_forward zero_network [[0%nat]] two_samples one_sample
  = Raise AssertionError /\
  Forward.lstm_forward zero_network [[0%nat]] one_sample three_rows
  = Raise AssertionError /\
  Forward.lstm_forward zero_network [[0%nat]] two_samples two_samples
  = Raise NotImplementedError /\
  Greedy.decode bos eos id2word trans0 tanh0 forced_step no_sampling tt two_samples true
  = Raise AssertionError.
Proof.
  split; [| split; [| split]].
  - apply (proj1 (Forward.shape_violations_raise zero_network bos eos id2word
                    trans0 tanh0 forced_step no_sampling [[0%nat]]
                    two_samples one_sample tt true)).
    left. simpl. lia.
  - apply (proj1 (Forward.shape_violations_raise zero_network bos eos id2word
                    trans0 tanh0 forced_step no_sampling [[0%nat]]
                    one_sample three_rows tt true)).
    right. simpl. lia.
  - apply (proj1 (proj2 (Forward.shape_violations_raise zero_network bos eos id2word
                           trans0 tanh0 forced_step no_sampling [[0%nat]]
                           two_samples two_samples tt true)));
      simpl; lia.
  - apply (proj2 (proj2 (Forward.shape_violations_raise zero_network bos eos id2word
                           trans0 tanh0 forced_step no_sampling [[0%nat]]
                           two_samples two_samples tt true))).
    simpl. lia.
Defined.

End Scenario.

(** ** Small instances of the estimators *)

Module Instances.
Import Tensor.
Local Open Scope R_scope.

(** An encoder whose parameters are all zero, on a batch of one example
    with two content and one style dimension; the noise is zero too. *)
Definition zero_forward4 (x : unit)
  : list (list R) * list (list R) * list (list R) * list (list R) :=
  ([[0; 0]], [[0; 0]], [[0]], [[0]]).

Definition zero_forward2 (x : unit) : result (list (list (list R))) :=
  Ok [[[0]]; [[0]]].

Definition zero_normal (g : unit) (a b c : nat) : list (list (list R)) * unit :=
  (repeat (repeat (repeat 0 c) b) a, g).

Lemma all_zero_1 : Encoder.all_zero [0].
Proof. intros x [<- | []]. reflexivity. Qed.

Lemma all_zero_2 : Encoder.all_zero [0; 0].
Proof. intros x [<- | [<- | []]]; reflexivity. Qed.

Lemma encode_kl_witness :
  nth_error (snd (fst (Encoder.encode zero_forward4 zero_normal tt tt 1))) 0 = Some 0.
Proof.
  exact (proj2 (Encoder.encode_kl zero_forward4 zero_normal tt tt 1 0
                  (mu_c := [[0; 0]]) (logvar_c := [[0; 0]])
                  (mu_s := [[0]]) (logvar_s := [[0]])
                  eq_refl eq_refl eq_refl eq_refl eq_refl eq_refl eq_refl)
               all_zero_2 all_zero_2 all_zero_1 all_zero_1).
Defined.

Definition one_sample_z : list (list R) := [[0 + 0 * exp (0 * 0.5)]].

Lemma width_1 (v : R) : rows_of_width 1 [[v]].
Proof. intros row [<- | []]. reflexivity. Qed.

(** The body of [calc_mi] on a one-example batch, for a [forward] that
    returns one mean and one log-variance tensor. *)
Lemma calc_mi_of_pair_zero :
  Encoder.calc_mi zero_forward2 zero_normal tt tt
  = Ok (Encoder.mi_estimate 1 [[0]] [[0]] one_sample_z, tt).
Proof.
  apply (Encoder.calc_mi_of_pair zero_forward2 zero_normal tt tt (nz := 1)
           (mu := [[0]]) (logvar := [[0]]) (zs := one_sample_z)).
  - reflexivity.
  - reflexivity.
  - discriminate.
  - reflexivity.
  - apply width_1.
  - apply width_1.
  - apply width_1.
Qed.

(** A one-unit network on two examples; the generator hands out the swap. *)
Definition w1 : list (list R) := [[1]].
Definition w2 : list (list R) := [[1]; [1]].

Definition swap_randint (g : unit) (high size : nat) : list nat * unit :=
  ([1%nat; 0%nat], g).

Definition flat_log_prob (mean_v : list R) (cov : list (list R)) (value : list R) : R := 0.

Definition two_examples : SgivenC.Sample3 :=
  SgivenC.mkSample3 1 2 1 [[[0]; [1]]].

Lemma get_s_c_mi_formula_witness :
  SgivenC.get_s_c_mi w1 w2 swap_randint flat_log_prob tt two_examples two_examples
  = Ok (SgivenC.contrastive_mi
          (SgivenC.log_p_given w1 w2 flat_log_prob (SgivenC.view two_examples))
          (SgivenC.view two_examples) [1%nat; 0%nat],
        tt).
Proof.
  apply (SgivenC.get_s_c_mi_formula w1 w2 swap_randint flat_log_prob tt
           two_examples two_examples).
  - reflexivity.
  - reflexivity.
  - reflexivity.
  - intros j [<- | [<- | []]]; simpl; lia.
Defined.

Lemma distribution_match_self_witness :
  SgivenC.get_log_prob_total_distribution
    w1 w2 (fst (SgivenC.forward w1 w2 [[1]])) (snd (SgivenC.forward w1 w2 [[1]])) [[1]]
  = 0.
Proof.
  apply (SgivenC.distribution_match_self w1 w2 [[1]]). simpl. lia.
Defined.

End Instances.

(** ** Runs of the two decoders on the forced decoder *)

Module Runs.
Import Scenario.
Local Open Scope Q_scope.

Definition one_row : Beam.latent_input := Beam.Joint [[0]].

(** The state after the second EXPAND step with [K = 2]. *)
Definition after2 : Beam.beam_state nat :=
  state_of (Beam.expand 4 eos forced_step 2 [0] after1).

Lemma after1_reachable :
  Beam.reachable 4 bos eos trans0 tanh0 forced_step 2 3 [0] after1.
Proof.
  apply Beam.reach_expand with (st := init2).
  - apply Beam.reach_init.
  - reflexivity.
  - vm_compute; reflexivity.
Qed.

Lemma after2_reachable :
  Beam.reachable 4 bos eos trans0 tanh0 forced_step 2 3 [0] after2.
Proof.
  apply Beam.reach_expand with (st := after1).
  - apply after1_reachable.
  - vm_compute; reflexivity.
  - vm_compute; reflexivity.
Qed.

Lemma no_search_returns_bos_witness :
  Beam.beam_search_decode 4 bos eos id2word trans0 tanh0 forced_step
                          (Beam.Joint [[0]; [1]]) 0 3
  = Ok [["<s>"]; ["<s>"]]%string.
Proof.
  apply (Beam.no_search_returns_bos 4 bos eos id2word trans0 tanh0 forced_step
           (Beam.Joint [[0]; [1]]) (z := [[0]; [1]]) (K := 0) (max_t := 3)).
  - reflexivity.
  - left. lia.
Defined.

Lemma beam_wider_than_vocabulary_witness :
  Beam.beam_search_decode 4 bos eos id2word trans0 tanh0 forced_step
                          (Beam.Joint [[0]; [1]]) 5 3
  = Raise RuntimeError.
Proof.
  apply (Beam.beam_wider_than_vocabulary (vocab_len := 4) bos eos id2word trans0 tanh0
           forced_step (Beam.Joint [[0]; [1]]) (z_idx := [0]) (rest := [[1]])
           (K := 5) (max_t := 3)).
  - reflexivity.
  - reflexivity.
  - simpl. lia.
  - lia.
Defined.

(** The completed and the live hypothesis of [after2]. *)
Definition done2 : Beam.BeamSearchNode nat :=
  hd (Beam.root_node bos trans0 tanh0 [0]) (Beam.completed_hypotheses after2).

Definition live2 : Beam.BeamSearchNode nat :=
  hd (Beam.root_node bos trans0 tanh0 [0]) (Beam.live_hypotheses after2).

Lemma done2_in : In done2 (Beam.completed_hypotheses after2).
Proof. left. reflexivity. Qed.

Lemma live2_in : In live2 (Beam.live_hypotheses after2).
Proof. left. reflexivity. Qed.

Lemma completed_end_in_eos_witness :
  Beam.wordid done2 = eos /\ Beam.wordid live2 <> eos.
Proof.
  destruct (Beam.completed_end_in_eos after2_reachable) as [Hc Hl].
  split; [exact (Hc done2 done2_in) |].
  apply Hl; [discriminate | exact live2_in].
Defined.

Lemma forced_run :
  Beam.beam_search_decode 4 bos eos id2word trans0 tanh0 forced_step one_row 2 3
  = Ok [three_words].
Proof. vm_compute. reflexivity. Qed.

(** A negative step budget: no step is taken and the root alone is read
    back. *)
Lemma negative_budget_run :
  Beam.beam_search_decode 4 bos eos id2word trans0 tanh0 forced_step one_row 2 (-2)
  = Ok [["<s>"%string]].
Proof. vm_compute. reflexivity. Qed.

Lemma decoded_starts_at_root_witness :
  (exists rest, three_words = id2word bos :: rest) /\
  (Z.of_nat (length three_words) <= Z.max 3 0 + 1)%Z.
Proof.
  exact (Beam.decoded_starts_at_root 4 bos eos id2word trans0 tanh0 forced_step
           one_row 2 3 three_words forced_run (or_introl eq_refl)).
Defined.

Lemma eos_only_at_end_witness :
  exists toks,
    three_words = map id2word toks /\
    Forall (fun w => w <> eos) (removelast toks) /\
    (last toks bos = eos \/ Z.of_nat (length toks) = (Z.max 3 0 + 1)%Z).
Proof.
  apply (Beam.eos_only_at_end 4 (bos := bos) (eos := eos) id2word trans0 tanh0
           forced_step one_row (K := 2) 3 (out := [three_words]) three_words).
  - lia.
  - discriminate.
  - exact forced_run.
  - left. reflexivity.
Defined.

Lemma forced_example_run :
  Beam.decode_example 4 bos eos id2word trans0 tanh0 forced_step 2 3 [0]
  = Ok three_words.
Proof. vm_compute. reflexivity. Qed.

Lemma decoded_is_best_scored_witness :
  exists st n,
    Beam.beam_loop 4 eos forced_step 3 2 3 [0] init2 = Ok st /\
    In n (Beam.completed_hypotheses st ++ Beam.live_hypotheses st) /\
    three_words = rev (Beam.utterance id2word n) /\
    forall m, In m (Beam.completed_hypotheses st ++ Beam.live_hypotheses st) ->
              Beam.logp m <= Beam.logp n.
Proof.
  exact (Beam.decoded_is_best_scored 4 bos eos id2word trans0 tanh0 forced_step
           2 3 [0] forced_example_run).
Defined.

Lemma scores_accumulate_witness :
  Beam.consistent bos trans0 tanh0 forced_step [0] done2 /\
  Beam.logp done2 <= 1 # 10.
Proof.
  apply (Beam.scores_accumulate (forced_step_well_formed [0]) after2_reachable done2).
  apply in_or_app. right. exact done2_in.
Defined.

Lemma greedy_run :
  Greedy.decode bos eos id2word trans0 tanh0 forced_step no_sampling tt one_sample true
  = Ok ([["a"; "</s>"]; ["a"; "</s>"]]%string, tt).
Proof. vm_compute. reflexivity. Qed.

Lemma decode_sequences_bounded_witness :
  length [["a"; "</s>"]; ["a"; "</s>"]]%string = length (view2 one_sample) /\
  (length ["a"; "</s>"]%string <= 99)%nat /\
  ((length ["a"; "</s>"]%string < 99)%nat ->
   exists pre, ["a"; "</s>"]%string = pre ++ [id2word eos]).
Proof.
  destruct (Greedy.decode_sequences_bounded bos eos id2word trans0 tanh0 forced_step
              no_sampling tt one_sample true greedy_run) as [Hlen Hall].
  split; [exact Hlen |].
  apply (Hall ["a"; "</s>"]%string). left. reflexivity.
Defined.

Lemma greedy_decode_keeps_generator_witness : tt = tt.
Proof.
  exact (Greedy.greedy_decode_keeps_generator bos eos id2word trans0 tanh0 forced_step
           no_sampling tt one_sample greedy_run).
Defined.

End Runs.

(** ** More small instances of the estimators *)

Module Values.
Import Tensor Instances.
Local Open Scope R_scope.

Lemma zero_kl_value :
  nth_error (snd (fst (Encoder.encode zero_forward4 zero_normal tt tt 1))) 0 = Some 0.
Proof.
  unfold Encoder.encode, zero_forward4.
  destruct (Encoder.reparameterize zero_normal tt [[0; 0]] [[0; 0]] 1) as [c g1].
  destruct (Encoder.reparameterize zero_normal g1 [[0]] [[0]] 1) as [s g2].
  cbn [fst snd]. rewrite !Encoder.kl_term_rows.
  cbn [zip_with combine map fst snd nth_error].
  rewrite (Encoder.kl_divergence_zero all_zero_2 all_zero_2).
  rewrite (Encoder.kl_divergence_zero all_zero_1 all_zero_1).
  f_equal. lra.
Qed.

Lemma kl_nonnegative_witness : 0 <= 0.
Proof.
  apply (Encoder.kl_nonnegative zero_forward4 zero_normal tt tt 1 0).
  apply (nth_error_In _ 0). exact zero_kl_value.
Defined.

Lemma kl_zero_only_at_prior_witness :
  Encoder.all_zero [0; 0] /\ Encoder.all_zero [0; 0] /\
  Encoder.all_zero [0] /\ Encoder.all_zero [0].
Proof.
  exact (Encoder.kl_zero_only_at_prior zero_forward4 zero_normal tt tt 1 0
           (mu_c := [[0; 0]]) (logvar_c := [[0; 0]]) (mu_s := [[0]]) (logvar_s := [[0]])
           eq_refl eq_refl eq_refl eq_refl eq_refl eq_refl eq_refl zero_kl_value).
Defined.

Definition zero_c : list (list (list R)) :=
  fst (Encoder.reparameterize zero_normal tt [[0; 0]] [[0; 0]] 1).

Definition zero_s : list (list (list R)) :=
  fst (Encoder.reparameterize zero_normal tt [[0]] [[0]] 1).

Lemma encode_agrees_with_sample_witness :
  Encoder.encode zero_forward4 zero_normal tt tt 1
  = ((zero_c, zero_s,
      zip_with Rplus (zip_with Encoder.kl_divergence [[0; 0]] [[0; 0]])
                     (zip_with Encoder.kl_divergence [[0]] [[0]])),
     tt).
Proof.
  apply (Encoder.encode_agrees_with_sample zero_forward4 zero_normal tt tt 1).
  reflexivity.
Defined.

Lemma reparameterize_entry_witness :
  exists sample_k row,
    nth_error (fst (Encoder.reparameterize zero_normal tt [[0]] [[0]] 1)) 0
    = Some sample_k /\
    nth_error sample_k 0 = Some row /\
    nth_error row 0 = Some (0 + 0 * exp (0 * 0.5)) /\
    snd (Encoder.reparameterize zero_normal tt [[0]] [[0]] 1) = tt.
Proof.
  apply (Encoder.reparameterize_entry zero_normal tt [[0]] [[0]] (eps := [[[0]]])
           (nsamples := 1) (k := 0) 0 0 (mu_i := [0]) (logvar_i := [0])
           (eps_k := [[0]]) (eps_ki := [0]));
    try reflexivity.
  lia.
Defined.

Lemma forward_shapes_witness :
  length (fst (SgivenC.forward w1 w2 [[1]; [2]])) = 2%nat /\
  length (snd (SgivenC.forward w1 w2 [[1]; [2]])) = 2%nat /\
  rows_of_width 1 (fst (SgivenC.forward w1 w2 [[1]; [2]])) /\
  rows_of_width 1 (snd (SgivenC.forward w1 w2 [[1]; [2]])).
Proof.
  apply (SgivenC.forward_shapes w1 w2 1 [[1]; [2]]). reflexivity.
Defined.

Lemma distribution_match_nonnegative_witness :
  0 <= SgivenC.get_log_prob_total_distribution w1 w2 [[0]] [[0]] [[1]].
Proof.
  apply (SgivenC.distribution_match_nonnegative w1 w2 [[0]] [[0]] [[1]]).
  simpl. lia.
Defined.

Lemma self_loss_value :
  SgivenC.get_log_prob_total_distribution
    w1 w2 (fst (SgivenC.forward w1 w2 [[1]])) (snd (SgivenC.forward w1 w2 [[1]])) [[1]]
  = 0.
Proof.
  unfold SgivenC.get_log_prob_total_distribution.
  destruct (SgivenC.forward w1 w2 [[1]]) as [m l]. cbn [fst snd].
  rewrite !SgivenC.mse_sum_self. unfold Rdiv. lra.
Qed.

Lemma shape_of_self (a : list (list R)) : SgivenC.same_shape a a.
Proof.
  unfold SgivenC.same_shape. induction a as [|r a IH]; constructor;
    [reflexivity | exact IH].
Qed.

Lemma distribution_match_zero_only_at_self_witness :
  fst (SgivenC.forward w1 w2 [[1]]) = fst (SgivenC.forward w1 w2 [[1]]) /\
  snd (SgivenC.forward w1 w2 [[1]]) = snd (SgivenC.forward w1 w2 [[1]]).
Proof.
  apply (SgivenC.distribution_match_zero_only_at_self (W1 := w1) (W2 := w2)
           (mean_ref := fst (SgivenC.forward w1 w2 [[1]]))
           (logvar_ref := snd (SgivenC.forward w1 w2 [[1]])) (c := [[1]])).
  - simpl. lia.
  - apply shape_of_self.
  - apply shape_of_self.
  - exact self_loss_value.
Defined.

Lemma get_log_prob_total_average_witness :
  SgivenC.get_log_prob_total w1 w2 flat_log_prob [[0]; [1]] [[0]; [1]]
  = sum_list (map (fun t => SgivenC.log_p_given w1 w2 flat_log_prob [[0]; [1]]
                                                (fst t) (snd t))
                  (combine [[0]; [1]] (seq 0 2)))
    / INR 2.
Proof.
  apply (SgivenC.get_log_prob_total_average w1 w2 flat_log_prob [[0]; [1]] [[0]; [1]]).
  reflexivity.
Defined.

Lemma contrastive_splits_witness :
  SgivenC.get_s_c_mi w1 w2 swap_randint flat_log_prob tt two_examples two_examples
  = Ok (SgivenC.get_log_prob_total w1 w2 flat_log_prob
          (SgivenC.view two_examples) (SgivenC.view two_examples)
        - sum_list (map (fun t => SgivenC.log_p_given w1 w2 flat_log_prob
                                    (SgivenC.view two_examples) (fst t) (snd t))
                        (combine (SgivenC.view two_examples) [1%nat; 0%nat]))
          / INR (length (SgivenC.view two_examples)),
        tt).
Proof.
  apply (SgivenC.contrastive_splits w1 w2 swap_randint flat_log_prob tt
           two_examples two_examples).
  - reflexivity.
  - reflexivity.
  - reflexivity.
  - intros j [<- | [<- | []]]; simpl; lia.
Defined.

Definition one_example : SgivenC.Sample3 := SgivenC.mkSample3 1 1 1 [[[0]]].

Lemma get_s_c_mi_row_mismatch_witness :
  SgivenC.get_s_c_mi w1 w2 swap_randint flat_log_prob tt one_example two_examples
  = Raise AssertionError.
Proof.
  apply (@SgivenC.get_s_c_mi_row_mismatch w1 w2 unit swap_randint flat_log_prob tt
           one_example two_examples 1%nat 1%nat).
  - simpl. lia.
  - simpl. lia.
  - unfold SgivenC.shapes_fit.
    split; [intros row [<- | []]; reflexivity |].
    split; [intros row [<- | [<- | []]]; reflexivity |].
    split; [reflexivity |].
    split; [lia |].
    split; [intros row [<- | [<- | []]]; reflexivity |].
    intros row [<- | []]; reflexivity.
  - simpl. lia.
Defined.

Definition own_randint (g : unit) (high size : nat) : list nat * unit :=
  (seq 0 size, g).

Lemma contrastive_own_index_witness :
  SgivenC.get_s_c_mi w1 w2 own_randint flat_log_prob tt two_examples two_examples
  = Ok (0, tt).
Proof.
  apply (SgivenC.contrastive_own_index w1 w2 own_randint flat_log_prob tt
           two_examples two_examples).
  - simpl. lia.
  - reflexivity.
  - reflexivity.
Defined.

End Values.
